(** * Content negotiation (package negotiator): shallow embedding and properties

    The development follows the Go package file by file: [charset.go],
    [encoding.go], [language.go], [mediatype.go] and the shared [specificity]
    helpers.  Header values and candidates are byte strings ([string]), Go's
    [int] is [Z] with the 64-bit wrap-around of its subtraction written out,
    [float64] is the kernel's binary64 type, [map[string]string] is a
    [gmap string string], and a run-time panic (an index out of range) is the
    [Panic] outcome.

    Three routines the package calls but does not contain are parameters of
    the embedding: [strconv.ParseFloat], [sort.Sort] (of which only the fact
    that it permutes the slice is ever assumed) and the comparator
    [compareSpecs] that language.go and encoding.go name. *)

From Stdlib Require Import ZArith List String Ascii Bool Lia Permutation Floats.
From stdpp Require Import base option list gmap strings.

Open Scope string_scope.
Open Scope Z_scope.

(** ** Outcomes: a value, or a run-time panic *)

Inductive outcome (A : Type) : Type :=
| Ok (a : A)
| Panic.

Arguments Ok {A} a.
Arguments Panic {A}.

Definition obind {A B : Type} (m : outcome A) (k : A -> outcome B) : outcome B :=
  match m with
  | Ok a => k a
  | Panic => Panic
  end.

#[global] Instance outcome_bind : MBind outcome := fun A B k m => obind m k.
#[global] Instance outcome_ret : MRet outcome := fun A a => Ok a.

(** ** Go's [int] *)

(** Two's complement reduction of an exact result to 64 bits. *)
Definition wrap64 (x : Z) : Z := (x + 2 ^ 63) mod 2 ^ 64 - 2 ^ 63.

Definition int_sub (a b : Z) : Z := wrap64 (a - b).

(** ** Package [strings], at the call sites' one-byte separators *)

(** [strings.Split(s, sep)] for a one-byte [sep]: never empty, [""] gives
    one empty piece. *)
Fixpoint Split (s : string) (sep : ascii) : list string :=
  match s with
  | EmptyString => [EmptyString]
  | String c s' =>
      if Ascii.eqb c sep then EmptyString :: Split s' sep
      else match Split s' sep with
           | [] => [String c EmptyString]
           | h :: t => String c h :: t
           end
  end.

Fixpoint TrimLeft (s : string) (c : ascii) : string :=
  match s with
  | EmptyString => EmptyString
  | String a s' => if Ascii.eqb a c then TrimLeft s' c else s
  end.

Fixpoint TrimRight (s : string) (c : ascii) : string :=
  match s with
  | EmptyString => EmptyString
  | String a s' =>
      match TrimRight s' c with
      | EmptyString => if Ascii.eqb a c then EmptyString else String a EmptyString
      | r => String a r
      end
  end.

(** [strings.Trim(s, cutset)] for a one-byte cutset. *)
Definition Trim (s : string) (c : ascii) : string := TrimRight (TrimLeft s c) c.

Definition lower_ascii (c : ascii) : ascii :=
  let n := nat_of_ascii c in
  if (Nat.leb 65 n && Nat.leb n 90)%bool then ascii_of_nat (n + 32) else c.

(** [strings.ToLower] on the ASCII repertoire of header values (bytes above
    127 are left as they are). *)
Fixpoint ToLower (s : string) : string :=
  match s with
  | EmptyString => EmptyString
  | String c s' => String (lower_ascii c) (ToLower s')
  end.

(** [strings.Index(s, sep)] for a one-byte [sep]: the first position, or -1. *)
Fixpoint Index (s : string) (c : ascii) : Z :=
  match s with
  | EmptyString => -1
  | String a s' =>
      if Ascii.eqb a c then 0
      else let r := Index s' c in if r <? 0 then -1 else r + 1
  end.

(** [strings.Count(s, sep)] for a one-byte [sep]. *)
Fixpoint Count (s : string) (c : ascii) : Z :=
  match s with
  | EmptyString => 0
  | String a s' => (if Ascii.eqb a c then 1 else 0) + Count s' c
  end.

Definition len (s : string) : Z := Z.of_nat (String.length s).

(** The slice expression [s[lo:hi]]; it panics unless [0 <= lo <= hi <= len(s)]. *)
Definition slice (s : string) (lo hi : Z) : outcome string :=
  if ((0 <=? lo) && (lo <=? hi) && (hi <=? len s))%bool
  then Ok (substring (Z.to_nat lo) (Z.to_nat (hi - lo)) s)
  else Panic.

(** The double quote character. *)
Definition dquote : ascii := ascii_of_nat 34.

(** ** Package [math] and [float64] *)

Definition is_neg_inf (x : float) : bool := PrimFloat.eqb x neg_infinity.

(** [math.Min]: minus infinity wins, then NaN, then the order, with -0 below +0. *)
Definition math_Min (x y : float) : float :=
  if (is_neg_inf x || is_neg_inf y)%bool then neg_infinity
  else if (is_nan x || is_nan y)%bool then nan
  else if (PrimFloat.eqb x zero && PrimFloat.eqb x y)%bool
       then (if get_sign x then x else y)
  else if PrimFloat.ltb x y then x else y.

(** ** The regexp2 patterns

    regexp2 matches by backtracking with greedy quantifiers; without options
    [.] excludes the newline and [$] holds at the end of the text or before a
    final newline.  Each pattern below is anchored at both ends and its
    character classes leave one way to match, which the function computes.
    [\s] is taken on the ASCII repertoire; the patterns are quoted with a
    blank before the parenthesis that closes a starred group. *)

Definition isSpace (c : ascii) : bool :=
  let n := nat_of_ascii c in
  (Nat.eqb n 32 || (Nat.leb 9 n && Nat.leb n 13))%bool.

Definition newline : ascii := ascii_of_nat 10.

(** The longest prefix whose characters satisfy [p], and what follows it. *)
Fixpoint span (p : ascii -> bool) (s : string) : string * string :=
  match s with
  | EmptyString => (EmptyString, EmptyString)
  | String c s' =>
      if p c then let '(a, b) := span p s' in (String c a, b)
      else (EmptyString, s)
  end.

(** [(.* )$] *)
Definition restOfLine (t : string) : option string :=
  let '(a, b) := span (fun c => negb (Ascii.eqb c newline)) t in
  match b with
  | EmptyString => Some a
  | String _ EmptyString => Some a
  | _ => None
  end.

(** [\s*(?:;(.* ))?$]: the text of the last group, empty when it is absent. *)
Definition paramsTail (s : string) : option string :=
  let '(_, r) := span isSpace s in
  match r with
  | EmptyString => Some EmptyString
  | String c t => if Ascii.eqb c ";" then restOfLine t else None
  end.

Definition tokenChar (c : ascii) : bool := negb (isSpace c || Ascii.eqb c ";").

(** [^\s*([^\s;]+)\s*(?:;(.* ))?$], shared by charset.go and encoding.go:
    groups 1 and 2. *)
Definition simpleCharsetRegExp (s : string) : option (string * string) :=
  let '(_, r) := span isSpace s in
  let '(g1, r1) := span tokenChar r in
  match g1 with
  | EmptyString => None
  | _ => match paramsTail r1 with
         | Some g2 => Some (g1, g2)
         | None => None
         end
  end.

Definition simpleEncodingRegExp : string -> option (string * string) :=
  simpleCharsetRegExp.

(** [^\s*([^\s\-;]+)(?:-([^\s;]+))?\s*(?:;(.* ))?$]: groups 1, 2 and 3. *)
Definition simpleLanguageRegExp (s : string) : option (string * string * string) :=
  let '(_, r) := span isSpace s in
  let '(g1, r1) := span (fun c => (tokenChar c && negb (Ascii.eqb c "-"))%bool) r in
  match g1 with
  | EmptyString => None
  | _ =>
      match r1 with
      | String "-"%char r2 =>
          let '(g2, r3) := span tokenChar r2 in
          match g2 with
          | EmptyString => None
          | _ => match paramsTail r3 with
                 | Some g3 => Some (g1, g2, g3)
                 | None => None
                 end
          end
      | _ => match paramsTail r1 with
             | Some g3 => Some (g1, EmptyString, g3)
             | None => None
             end
      end
  end.

(** [^\s*([^\s\/;]+)\/([^;\s]+)\s*(?:;(.* ))?$]: groups 1, 2 and 3. *)
Definition simpleMediaTypeRegExp (s : string) : option (string * string * string) :=
  let '(_, r) := span isSpace s in
  let '(g1, r1) := span (fun c => (tokenChar c && negb (Ascii.eqb c "/"))%bool) r in
  match g1, r1 with
  | String _ _, String "/"%char r2 =>
      let '(g2, r3) := span tokenChar r2 in
      match g2 with
      | EmptyString => None
      | _ => match paramsTail r3 with
             | Some g3 => Some (g1, g2, g3)
             | None => None
             end
      end
  | _, _ => None
  end.

(** ** Entries and scores *)

Record acceptCharset : Type := mkAcceptCharset {
  charset : string;
  charset_q : float;
  charset_i : Z
}.

Record acceptEncoding : Type := mkAcceptEncoding {
  encoding : string;
  encoding_q : float;
  encoding_i : Z
}.

Record acceptLanguage : Type := mkAcceptLanguage {
  prefix : string;
  suffix : string;
  full : string;
  language_q : float;
  language_i : Z
}.

Record acceptMediaType : Type := mkAcceptMediaType {
  mainType : string;
  subtype : string;
  params : gmap string string;
  mediaType_q : float;
  mediaType_i : Z
}.

(** [specificity{i, o, q, s}]: candidate position, matched entry's order,
    matched entry's quality, specificity bits. *)
Record specificity : Type := mkSpecificity {
  spec_i : Z;
  spec_o : Z;
  spec_q : float;
  spec_s : Z
}.

(** The comparison [v == s] of two [specificity] values. *)
Definition specificity_eqb (a b : specificity) : bool :=
  ((spec_i a =? spec_i b) && (spec_o a =? spec_o b)
   && PrimFloat.eqb (spec_q a) (spec_q b) && (spec_s a =? spec_s b))%bool.

Fixpoint indexOf_from (ss : list specificity) (s : specificity) (k : Z) : Z :=
  match ss with
  | [] => -1
  | v :: ss' => if specificity_eqb v s then k else indexOf_from ss' s (k + 1)
  end.

Definition indexOf (ss : list specificity) (s : specificity) : Z :=
  indexOf_from ss s 0.

Definition isSpecificityQuality (s : specificity) : bool :=
  PrimFloat.ltb 0 (spec_q s).

(** [specificity{o: -1, q: 0, s: 0}], the initial value of every priority loop. *)
Definition noPriority : specificity := mkSpecificity 0 (-1) 0 0.

(** The test of the priority loops:
    [s, q, o := priority.s-spec.s, priority.q-spec.q, priority.o-spec.o]
    and then [s < 0 || q < 0 || o < 0]. *)
Definition replaces (priority spec : specificity) : bool :=
  let s := int_sub (spec_s priority) (spec_s spec) in
  let q := PrimFloat.sub (spec_q priority) (spec_q spec) in
  let o := int_sub (spec_o priority) (spec_o spec) in
  ((s <? 0) || PrimFloat.ltb q 0 || (o <? 0))%bool.

(** The comparator written inline in charset.go and mediatype.go:
    [s1.q > s2.q || s1.s < s2.s || s1.o < s2.o || s1.i < s2.i]. *)
Definition specLess (s1 s2 : specificity) : bool :=
  (PrimFloat.ltb (spec_q s2) (spec_q s1) || (spec_s s1 <? spec_s s2)
   || (spec_o s1 <? spec_o s2) || (spec_i s1 <? spec_i s2))%bool.

(** The loop that turns sorted scores back into candidates:
    [i := priorities.indexOf(v); if i >= 0 { results = append(results, provided[i]) }]. *)
Fixpoint collect (priorities : list specificity) (provided : list string)
    (sorted : list specificity) : outcome (list string) :=
  match sorted with
  | [] => Ok []
  | v :: rest =>
      let i := indexOf priorities v in
      if 0 <=? i then
        match provided !! Z.to_nat i with
        | Some x => r ← collect priorities provided rest; Ok (x :: r)
        | None => Panic
        end
      else collect priorities provided rest
  end.

(** ** The package, over the routines it imports *)

Section Negotiator.

(** [strconv.ParseFloat(s, 64)]: [None] stands for a non-nil error. *)
Variable ParseFloat : string -> option float.

(** [sort.Sort] on a slice, [less x y] being the sorter's [Less] on the
    positions that hold [x] and [y]. *)
Variable sort_Sort : forall A : Type, (A -> A -> bool) -> list A -> list A.

(** The comparator named by language.go and encoding.go. *)
Variable compareSpecs : specificity -> specificity -> bool.

(** The parameter loop of parseCharset, parseEncoding and parseLanguage:
    [p := strings.Split(strings.Trim(params[j], " "), "=")], and on
    [p[0] == "q"] the value [p[1]] is parsed.  [Ok None] is [return nil],
    [Ok (Some q)] the quality after the loop; [p[1]] panics when the
    parameter has no [=]. *)
Fixpoint qualityParam (ps : list string) (q : float) : outcome (option float) :=
  match ps with
  | [] => Ok (Some q)
  | pj :: rest =>
      match Split (Trim pj " ") "=" with
      | [] => Panic
      | p0 :: ptl =>
          if String.eqb p0 "q" then
            match ptl with
            | [] => Panic
            | p1 :: _ =>
                match ParseFloat p1 with
                | None => Ok None
                | Some q1 => Ok (Some q1)
                end
            end
          else qualityParam rest q
      end
  end.

(** The quality of an entry whose last group is [ps]. *)
Definition qualityOf (ps : string) : outcome (option float) :=
  if String.eqb ps "" then Ok (Some 1%float)
  else qualityParam (Split ps ";") 1%float.

(** *** charset.go *)

Definition parseCharset (s : string) (i : Z) : outcome (option acceptCharset) :=
  match simpleCharsetRegExp s with
  | None => Ok None
  | Some (cs, ps) =>
      r ← qualityOf ps;
      Ok (match r with
          | None => None
          | Some q => Some (mkAcceptCharset cs q i)
          end)
  end.

Fixpoint parseCharsets (accepts : list string) (i : Z) : outcome (list acceptCharset) :=
  match accepts with
  | [] => Ok []
  | a :: rest =>
      c ← parseCharset (Trim a " ") i;
      cs ← parseCharsets rest (i + 1);
      Ok (match c with
          | Some x => x :: cs
          | None => cs
          end)
  end.

Definition parseAcceptCharset (accept : string) : outcome (list acceptCharset) :=
  parseCharsets (Split accept ",") 0.

Definition charsetSpecify (cs : string) (ac : acceptCharset) (index : Z)
    : option specificity :=
  if String.eqb (ToLower (charset ac)) (ToLower cs)
  then Some (mkSpecificity index (charset_i ac) (charset_q ac) (Z.lor 0 1))
  else if negb (String.eqb (charset ac) "*") then None
  else Some (mkSpecificity index (charset_i ac) (charset_q ac) 0).

Definition getCharsetPriority (cs : string) (acs : list acceptCharset) (index : Z)
    : specificity :=
  fold_left
    (fun priority ac =>
       match charsetSpecify cs ac index with
       | Some spec => if replaces priority spec then spec else priority
       | None => priority
       end)
    acs noPriority.

Definition isAcceptCharsetQuality (ac : acceptCharset) : bool :=
  PrimFloat.ltb 0 (charset_q ac).

Fixpoint getCharsetSpecificities_from (types : list string) (acs : list acceptCharset)
    (i : Z) : list specificity :=
  match types with
  | [] => []
  | v :: rest => getCharsetPriority v acs i :: getCharsetSpecificities_from rest acs (i + 1)
  end.

Definition getCharsetSpecificities (types : list string) (acs : list acceptCharset)
    : list specificity :=
  getCharsetSpecificities_from types acs 0.

(** The comparator of the no-candidate branch:
    [ac1.q > ac2.q || ac1.i < ac2.i]. *)
Definition charsetLess (ac1 ac2 : acceptCharset) : bool :=
  (PrimFloat.ltb (charset_q ac2) (charset_q ac1) || (charset_i ac1 <? charset_i ac2))%bool.

Definition toCharsets (acs : list acceptCharset) : list string := map charset acs.

Definition PreferredCharsets (accept : string) (provided : list string)
    : outcome (list string) :=
  acs ← parseAcceptCharset accept;
  if Z.of_nat (length provided) =? 0 then
    let filteredAcs := List.filter isAcceptCharsetQuality acs in
    Ok (toCharsets (sort_Sort _ charsetLess filteredAcs))
  else
    let priorities := getCharsetSpecificities provided acs in
    let filteredPriorities := List.filter isSpecificityQuality priorities in
    collect priorities provided (sort_Sort _ specLess filteredPriorities).

(** *** encoding.go *)

Definition parseEncoding (s : string) (i : Z) : outcome (option acceptEncoding) :=
  match simpleEncodingRegExp s with
  | None => Ok None
  | Some (e, ps) =>
      r ← qualityOf ps;
      Ok (match r with
          | None => None
          | Some q => Some (mkAcceptEncoding e q i)
          end)
  end.

Definition encodingSpecify (e : string) (ac : acceptEncoding) (index : Z)
    : option specificity :=
  if String.eqb (ToLower (encoding ac)) (ToLower e)
  then Some (mkSpecificity index (encoding_i ac) (encoding_q ac) (Z.lor 0 1))
  else if negb (String.eqb (encoding ac) "*") then None
  else Some (mkSpecificity index (encoding_i ac) (encoding_q ac) 0).

(** The loop of parseAcceptEncoding, carrying [results], [hasIdentity] and
    [minQuality]. *)
Fixpoint parseEncodings (accepts : list string) (i : Z)
    (results : list acceptEncoding) (hasIdentity : bool) (minQuality : float)
    : outcome (list acceptEncoding * bool * float) :=
  match accepts with
  | [] => Ok (results, hasIdentity, minQuality)
  | a :: rest =>
      e ← parseEncoding (Trim a " ") i;
      match e with
      | Some x =>
          let spec := encodingSpecify "identity" x 0 in
          parseEncodings rest (i + 1) (results ++ [x])%list
            (hasIdentity || bool_decide (is_Some spec))%bool
            (math_Min minQuality (encoding_q x))
      | None => parseEncodings rest (i + 1) results hasIdentity minQuality
      end
  end.

Definition parseAcceptEncoding (accept : string) : outcome (list acceptEncoding) :=
  let accepts := Split accept "," in
  let length := Z.of_nat (List.length accepts) in
  '(results, hasIdentity, minQuality) ← parseEncodings accepts 0 [] false 1%float;
  Ok (if negb hasIdentity
      then (results ++ [mkAcceptEncoding "identity" minQuality length])%list
      else results).

Definition getEncodingPriority (e : string) (acs : list acceptEncoding) (index : Z)
    : specificity :=
  fold_left
    (fun priority ac =>
       match encodingSpecify e ac index with
       | Some spec => if replaces priority spec then spec else priority
       | None => priority
       end)
    acs noPriority.

Definition isAcceptEncodingQuality (ac : acceptEncoding) : bool :=
  PrimFloat.ltb 0 (encoding_q ac).

Fixpoint getEncodingSpecificities_from (types : list string) (acs : list acceptEncoding)
    (i : Z) : list specificity :=
  match types with
  | [] => []
  | v :: rest => getEncodingPriority v acs i :: getEncodingSpecificities_from rest acs (i + 1)
  end.

Definition getEncodingSpecificities (types : list string) (acs : list acceptEncoding)
    : list specificity :=
  getEncodingSpecificities_from types acs 0.

(** [if ac1.q != ac2.q { return ac1.q > ac2.q }; return ac1.i < ac2.i]. *)
Definition encodingLess (ac1 ac2 : acceptEncoding) : bool :=
  if negb (PrimFloat.eqb (encoding_q ac1) (encoding_q ac2))
  then PrimFloat.ltb (encoding_q ac2) (encoding_q ac1)
  else encoding_i ac1 <? encoding_i ac2.

Definition toEncodings (acs : list acceptEncoding) : list string := map encoding acs.

Definition PreferredEncodings (accept : string) (provided : list string)
    : outcome (list string) :=
  acs ← parseAcceptEncoding accept;
  if Z.of_nat (length provided) =? 0 then
    let filteredAcs := List.filter isAcceptEncodingQuality acs in
    Ok (toEncodings (sort_Sort _ encodingLess filteredAcs))
  else
    let priorities := getEncodingSpecificities provided acs in
    let filteredPriorities := List.filter isSpecificityQuality priorities in
    collect priorities provided (sort_Sort _ compareSpecs filteredPriorities).

(** *** language.go *)

Definition parseLanguage (s : string) (i : Z) : outcome (option acceptLanguage) :=
  match simpleLanguageRegExp s with
  | None => Ok None
  | Some (pre, suf, ps) =>
      let full := if negb (String.eqb suf "") then pre +:+ "-" +:+ suf else pre in
      r ← qualityOf ps;
      Ok (match r with
          | None => None
          | Some q => Some (mkAcceptLanguage pre suf full q i)
          end)
  end.

Fixpoint parseLanguages (accepts : list string) (i : Z) : outcome (list acceptLanguage) :=
  match accepts with
  | [] => Ok []
  | a :: rest =>
      l ← parseLanguage (Trim a " ") i;
      ls ← parseLanguages rest (i + 1);
      Ok (match l with
          | Some x => x :: ls
          | None => ls
          end)
  end.

Definition parseAcceptLanguage (accept : string) : outcome (list acceptLanguage) :=
  parseLanguages (Split accept ",") 0.

Definition languageSpecify (language : string) (ac : acceptLanguage) (index : Z)
    : outcome (option specificity) :=
  p ← parseLanguage language index;
  Ok (match p with
      | None => None
      | Some p =>
          if String.eqb (ToLower (full ac)) (ToLower (full p))
          then Some (mkSpecificity index (language_i ac) (language_q ac) (Z.lor 0 4))
          else if String.eqb (ToLower (prefix ac)) (ToLower (full p))
          then Some (mkSpecificity index (language_i ac) (language_q ac) (Z.lor 0 2))
          else if String.eqb (ToLower (full ac)) (ToLower (prefix p))
          then Some (mkSpecificity index (language_i ac) (language_q ac) (Z.lor 0 1))
          else if negb (String.eqb (full ac) "*") then None
          else Some (mkSpecificity index (language_i ac) (language_q ac) 0)
      end).

Fixpoint getLanguagePriority_from (language : string) (acs : list acceptLanguage)
    (index : Z) (priority : specificity) : outcome specificity :=
  match acs with
  | [] => Ok priority
  | ac :: rest =>
      spec ← languageSpecify language ac index;
      getLanguagePriority_from language rest index
        (match spec with
         | Some spec => if replaces priority spec then spec else priority
         | None => priority
         end)
  end.

Definition getLanguagePriority (language : string) (acs : list acceptLanguage)
    (index : Z) : outcome specificity :=
  getLanguagePriority_from language acs index noPriority.

Definition isAcceptLanguageQuality (ac : acceptLanguage) : bool :=
  PrimFloat.ltb 0 (language_q ac).

Fixpoint getLanguageSpecificities_from (types : list string) (acs : list acceptLanguage)
    (i : Z) : outcome (list specificity) :=
  match types with
  | [] => Ok []
  | v :: rest =>
      p ← getLanguagePriority v acs i;
      ps ← getLanguageSpecificities_from rest acs (i + 1);
      Ok (p :: ps)
  end.

Definition getLanguageSpecificities (types : list string) (acs : list acceptLanguage)
    : outcome (list specificity) :=
  getLanguageSpecificities_from types acs 0.

(** [if ac1.q != ac2.q { return ac1.q > ac2.q }; return ac1.i < ac2.i]. *)
Definition languageLess (ac1 ac2 : acceptLanguage) : bool :=
  if negb (PrimFloat.eqb (language_q ac1) (language_q ac2))
  then PrimFloat.ltb (language_q ac2) (language_q ac1)
  else language_i ac1 <? language_i ac2.

Definition toLanguages (acs : list acceptLanguage) : list string := map full acs.

Definition PreferredLanguages (accept : string) (provided : list string)
    : outcome (list string) :=
  acs ← parseAcceptLanguage accept;
  if Z.of_nat (length provided) =? 0 then
    let filteredAcs := List.filter isAcceptLanguageQuality acs in
    Ok (toLanguages (sort_Sort _ languageLess filteredAcs))
  else
    priorities ← getLanguageSpecificities provided acs;
    let filteredPriorities := List.filter isSpecificityQuality priorities in
    collect priorities provided (sort_Sort _ compareSpecs filteredPriorities).

(** *** mediatype.go *)

Definition quoteCount (s : string) : Z := Count s dquote.

(** [index := strings.Index(s, "=")]; the pair [{key, val}]. *)
Definition splitKeyValuePair (s : string) : string * string :=
  let index := Index s "=" in
  if index =? -1 then (s, EmptyString)
  else (substring 0 (Z.to_nat index) s,
        substring (Z.to_nat (index + 1)) (String.length s - Z.to_nat (index + 1)) s).

(** The loop shared by splitMediaTypes and splitParameters, on the array
    [arr] updated in place: [n] rounds are left, [i] is the piece read and
    [j] the piece being built. *)
Fixpoint joinQuoted (sep : string) (n : nat) (arr : list string) (i j : nat)
    : outcome (list string * nat) :=
  match n with
  | O => Ok (arr, j)
  | S n' =>
      match arr !! j, arr !! i with
      | Some aj, Some ai =>
          if quoteCount aj mod 2 =? 0 then
            if bool_decide (S j < length arr)%nat
            then joinQuoted sep n' (<[S j := ai]> arr) (S i) (S j)
            else Panic
          else joinQuoted sep n' (<[j := aj +:+ sep +:+ ai]> arr) (S i) j
      | _, _ => Panic
      end
  end.

(** [accepts[0 : j+1]]. *)
Definition upTo (arr : list string) (j : nat) : outcome (list string) :=
  if bool_decide (S j <= length arr)%nat then Ok (take (S j) arr) else Panic.

Definition splitMediaTypes (accept : string) : outcome (list string) :=
  let accepts := Split accept "," in
  '(arr, j) ← joinQuoted "," (length accepts - 1) accepts 1 0;
  upTo arr j.

Definition splitParameters (str : string) : outcome (list string) :=
  let parameters := Split str ";" in
  '(arr, j) ← joinQuoted ";" (length parameters - 1) parameters 1 0;
  parameters ← upTo arr j;
  Ok (map (fun p => Trim p " ") parameters).

(** [val[1:int(math.Max(float64(len(val)-1), 1))]] when [val] is not empty
    and both its first and its last byte are quotes. *)
Definition unquote (val : string) : outcome string :=
  if (negb (String.eqb val "")
      && bool_decide (String.get 0 val = Some dquote)
      && bool_decide (String.get (String.length val - 1) val = Some dquote))%bool
  then slice val 1 (Z.max (len val - 1) 1)
  else Ok val.

(** The loop of parseMediaType over the key-value pairs: [None] is
    [return nil], otherwise the parameters and the quality. *)
Fixpoint mediaParams (arr : list (string * string)) (ps : gmap string string)
    (q : float) : outcome (option (gmap string string * float)) :=
  match arr with
  | [] => Ok (Some (ps, q))
  | kv :: rest =>
      let key := ToLower kv.1 in
      val ← unquote kv.2;
      if String.eqb key "q" then
        Ok (match ParseFloat val with
            | None => None
            | Some q1 => Some (ps, q1)
            end)
      else mediaParams rest (<[key := val]> ps) q
  end.

Definition parseMediaType (s : string) (i : Z) : outcome (option acceptMediaType) :=
  match simpleMediaTypeRegExp s with
  | None => Ok None
  | Some (mainType, subType, ps) =>
      if negb (String.eqb ps "") then
        kvps ← splitParameters ps;
        r ← mediaParams (map splitKeyValuePair kvps) ∅ 1%float;
        Ok (match r with
            | None => None
            | Some (params, q) => Some (mkAcceptMediaType mainType subType params q i)
            end)
      else Ok (Some (mkAcceptMediaType mainType subType ∅ 1%float i))
  end.

Fixpoint parseMediaTypes (accepts : list string) (i : Z) : outcome (list acceptMediaType) :=
  match accepts with
  | [] => Ok []
  | a :: rest =>
      m ← parseMediaType (Trim a " ") i;
      ms ← parseMediaTypes rest (i + 1);
      Ok (match m with
          | Some x => x :: ms
          | None => ms
          end)
  end.

Definition parseAcceptMediaType (accept : string) : outcome (list acceptMediaType) :=
  accepts ← splitMediaTypes accept;
  parseMediaTypes accepts 0.

(** The test on one key of [ac.params]; a key the candidate lacks reads as
    the empty string. *)
Definition paramMatches (p : acceptMediaType) (kv : string * string) : bool :=
  (String.eqb kv.2 "*"
   || String.eqb (ToLower kv.2) (ToLower (default EmptyString (params p !! kv.1))))%bool.

Definition mediaTypeSpecify (mediaType : string) (ac : acceptMediaType) (index : Z)
    : outcome (option specificity) :=
  p ← parseMediaType mediaType index;
  Ok (p ← p;
      s ← (if String.eqb (ToLower (mainType ac)) (ToLower (mainType p))
           then Some (Z.lor 0 4)
           else if negb (String.eqb (mainType ac) "*") then None else Some 0);
      s ← (if String.eqb (ToLower (subtype ac)) (ToLower (subtype p))
           then Some (Z.lor s 2)
           else if negb (String.eqb (subtype ac) "*") then None else Some s);
      let keys := map_to_list (params ac) in
      s ← (if 0 <? Z.of_nat (length keys)
           then if forallb (paramMatches p) keys then Some (Z.lor s 1) else None
           else Some s);
      Some (mkSpecificity index (mediaType_i ac) (mediaType_q ac) s)).

Fixpoint getMediaTypePriority_from (mediaType : string) (acs : list acceptMediaType)
    (index : Z) (priority : specificity) : outcome specificity :=
  match acs with
  | [] => Ok priority
  | ac :: rest =>
      spec ← mediaTypeSpecify mediaType ac index;
      getMediaTypePriority_from mediaType rest index
        (match spec with
         | Some spec => if replaces priority spec then spec else priority
         | None => priority
         end)
  end.

Definition getMediaTypePriority (mediaType : string) (acs : list acceptMediaType)
    (index : Z) : outcome specificity :=
  getMediaTypePriority_from mediaType acs index noPriority.

Definition isAcceptMediaTypeQuality (ac : acceptMediaType) : bool :=
  PrimFloat.ltb 0 (mediaType_q ac).

Fixpoint getMediaTypeSpecificities_from (types : list string) (acs : list acceptMediaType)
    (i : Z) : outcome (list specificity) :=
  match types with
  | [] => Ok []
  | v :: rest =>
      p ← getMediaTypePriority v acs i;
      ps ← getMediaTypeSpecificities_from rest acs (i + 1);
      Ok (p :: ps)
  end.

Definition getMediaTypeSpecificities (types : list string) (acs : list acceptMediaType)
    : outcome (list specificity) :=
  getMediaTypeSpecificities_from types acs 0.

(** [ac1.q > ac2.q || ac1.i < ac2.i]. *)
Definition mediaTypeLess (ac1 ac2 : acceptMediaType) : bool :=
  (PrimFloat.ltb (mediaType_q ac2) (mediaType_q ac1)
   || (mediaType_i ac1 <? mediaType_i ac2))%bool.

Definition toMediaTypes (acs : list acceptMediaType) : list string :=
  map (fun ac => mainType ac +:+ "/" +:+ subtype ac) acs.

Definition PreferredMediaTypes (accept : string) (provided : list string)
    : outcome (list string) :=
  acs ← parseAcceptMediaType accept;
  if Z.of_nat (length provided) =? 0 then
    let filteredAcs := List.filter isAcceptMediaTypeQuality acs in
    Ok (toMediaTypes (sort_Sort _ mediaTypeLess filteredAcs))
  else
    priorities ← getMediaTypeSpecificities provided acs;
    let filteredPriorities := List.filter isSpecificityQuality priorities in
    collect priorities provided (sort_Sort _ specLess filteredPriorities).

End Negotiator.

(** ** The standard library routines at the inputs of the examples *)

(** *** strconv.ParseFloat on decimal literals and the special values

    Sign, digits with an optional point, an optional decimal exponent, or
    one of inf, infinity and nan in any case; the value is rounded to the
    nearest binary64, ties to even, and a value that rounds to an infinity
    is the range error.  (Hexadecimal literals and digit separators, which
    later releases accept as well, are rejected here.) *)

Definition digitOf (c : ascii) : option Z :=
  let n := nat_of_ascii c in
  if (Nat.leb 48 n && Nat.leb n 57)%bool then Some (Z.of_nat n - 48) else None.

(** The digits at the head of [s], added to [acc]; their number added to [n]. *)
Fixpoint readDigits (s : string) (acc n : Z) : Z * Z * string :=
  match s with
  | EmptyString => (acc, n, EmptyString)
  | String c s' =>
      match digitOf c with
      | Some d => readDigits s' (10 * acc + d) (n + 1)
      | None => (acc, n, s)
      end
  end.

(** The binary64 nearest to [m * 10 ^ e10], for [0 <= m], with sign [neg]. *)
Definition roundDecimal (neg : bool) (m e10 : Z) : spec_float :=
  if m =? 0 then S754_zero neg
  else if 0 <=? e10 then binary_round prec emax neg (Z.to_pos (m * 10 ^ e10)) 0
  else
    let d := 10 ^ (- e10) in
    let sh := Z.max 0 (Z.log2 d - Z.log2 m + 64) in
    let n := m * 2 ^ sh in
    let sticky := if n mod d =? 0 then 0 else 1 in
    binary_round prec emax neg (Z.to_pos (2 * (n / d) + sticky)) (- sh - 1).

(** An optional exponent part: [Some 0] when there is none, [None] when it
    is malformed or followed by anything. *)
Definition readExponent (s : string) : option Z :=
  match s with
  | EmptyString => Some 0
  | String c r =>
      if (Ascii.eqb c "e" || Ascii.eqb c "E")%bool then
        let '(neg, r) :=
          match r with
          | String "-"%char r' => (true, r')
          | String "+"%char r' => (false, r')
          | _ => (false, r)
          end in
        match readDigits r 0 0 with
        | (e, n, EmptyString) => if 0 <? n then Some (if neg then - e else e) else None
        | _ => None
        end
      else None
  end.

Definition parseDecimal (neg : bool) (s : string) : option float :=
  let '(a, n1, r1) := readDigits s 0 0 in
  let '(m, n2, r2) :=
    match r1 with
    | String "."%char r => readDigits r a 0
    | _ => (a, 0, r1)
    end in
  if 0 <? n1 + n2 then
    match readExponent r2 with
    | Some e =>
        match roundDecimal neg m (e - n2) with
        | S754_infinity _ => None
        | f => Some (SF2Prim f)
        end
    | None => None
    end
  else None.

Definition ParseFloat64 (s : string) : option float :=
  let '(signed, neg, r) :=
    match s with
    | String "-"%char r => (true, true, r)
    | String "+"%char r => (true, false, r)
    | _ => (false, false, s)
    end in
  let low := ToLower r in
  if (String.eqb low "inf" || String.eqb low "infinity")%bool
  then Some (if neg then neg_infinity else infinity)
  else if (negb signed && String.eqb low "nan")%bool then Some nan
  else parseDecimal neg r.

(** *** sort.Sort on a short slice

    On a slice of at most twelve elements [sort.Sort] runs
    [insertionSort(data, 0, n)] (releases before 1.19 first make a pass over
    the pairs six positions apart, of which a slice of at most six elements
    has none):
    [for i := a + 1; i < b; i++ { for j := i; j > a && data.Less(j, j-1); j-- { data.Swap(j, j-1) } }].
    [sift less x before] moves [x] down past the elements before it, nearest
    first, while [Less] holds. *)

Fixpoint sift {A : Type} (less : A -> A -> bool) (x : A) (before : list A) : list A :=
  match before with
  | [] => [x]
  | y :: rest => if less x y then y :: sift less x rest else x :: before
  end.

Definition insertionSort (A : Type) (less : A -> A -> bool) (data : list A) : list A :=
  rev (fold_left (fun before x => sift less x before) data []).

(** * Properties *)

(** ** [float64] comparisons *)

(** A positive number or plus infinity: neither NaN, nor a zero, nor negative. *)
Definition positiveSF (f : spec_float) : Prop :=
  match f with
  | S754_finite false _ _ => True
  | S754_infinity false => True
  | _ => False
  end.

Definition positive64 (q : float) : Prop := positiveSF (Prim2SF q).

Lemma ltb_zero_positive (q : float) :
  PrimFloat.ltb 0 q = true -> positive64 q.
Proof.
  unfold positive64. rewrite FloatAxioms.ltb_spec. unfold SFltb.
  replace (Prim2SF 0) with (S754_zero false) by reflexivity.
  destruct (Prim2SF q) as [s | s | | s m e]; simpl;
    try destruct s; simpl; try discriminate; auto.
Qed.

Lemma SFcompare_refl_positive (f : spec_float) :
  positiveSF f -> SFcompare f f = Some Eq.
Proof.
  destruct f as [s | s | | s m e]; simpl; try destruct s;
    try contradiction; intros _; auto.
  rewrite Z.compare_refl. f_equal. apply Pos.compare_cont_refl.
Qed.

Lemma eqb_refl_positive (q : float) :
  PrimFloat.ltb 0 q = true -> PrimFloat.eqb q q = true.
Proof.
  intros H. apply ltb_zero_positive in H.
  rewrite FloatAxioms.eqb_spec. unfold SFeqb.
  now rewrite SFcompare_refl_positive.
Qed.

Lemma eqb_positive (a b : float) :
  PrimFloat.eqb a b = true -> PrimFloat.ltb 0 b = true -> PrimFloat.ltb 0 a = true.
Proof.
  rewrite FloatAxioms.eqb_spec. intros Heq Hb.
  pose proof (ltb_zero_positive _ Hb) as Hp. unfold positive64 in Hp.
  rewrite FloatAxioms.ltb_spec in *. unfold SFeqb, SFltb in *.
  replace (Prim2SF 0) with (S754_zero false) in * by reflexivity.
  destruct (Prim2SF a) as [sa | sa | | sa ma ea],
           (Prim2SF b) as [sb | sb | | sb mb eb];
    simpl in *; try destruct sa; try destruct sb; simpl in *;
    try discriminate; try contradiction; auto.
Qed.

(** ** Case folding and the wildcard *)

Lemma lower_ascii_star (c : ascii) : lower_ascii c = "*"%char -> c = "*"%char.
Proof.
  destruct c as [[] [] [] [] [] [] [] []]; vm_compute; congruence.
Qed.

Lemma ToLower_star (s : string) : ToLower s = "*" <-> s = "*".
Proof.
  split; [| intros ->; reflexivity].
  destruct s as [| c [| d s]]; simpl; try discriminate.
  intros H. injection H as H. apply lower_ascii_star in H. now subst.
Qed.

Lemma eqb_ToLower_star (s : string) :
  String.eqb (ToLower s) "*" = String.eqb s "*".
Proof.
  destruct (String.eqb_spec s "*") as [-> | Hne]; [reflexivity |].
  apply String.eqb_neq. intros H. apply (proj1 (ToLower_star s)) in H. contradiction.
Qed.

(** ** The insertion sort permutes *)

Lemma sift_Permutation {A : Type} (less : A -> A -> bool) (x : A) (before : list A) :
  Permutation (sift less x before) (x :: before).
Proof.
  induction before as [| y rest IH]; simpl; [reflexivity |].
  destruct (less x y); [| reflexivity].
  rewrite IH. apply perm_swap.
Qed.

Lemma insertionSort_Permutation (A : Type) (less : A -> A -> bool) (data : list A) :
  Permutation (insertionSort A less data) data.
Proof.
  unfold insertionSort.
  assert (G : forall before,
             Permutation (fold_left (fun b x => sift less x b) data before)
                         (before ++ data)).
  { induction data as [| x data IH]; intros before; simpl.
    - now rewrite app_nil_r.
    - rewrite IH, sift_Permutation. apply Permutation_middle. }
  rewrite <- Permutation_rev. apply (G []).
Qed.

(** ** Wildcards in charsetSpecify and encodingSpecify *)

(** C10. An entry whose value is "*" matches every candidate, with bits 0
    for every candidate but "*" itself; the candidate "*" is matched by the
    entries whose value is "*" and by no other entry, with bits 1.  The same
    holds of encodingSpecify. *)
Theorem wildcard_asymmetry (c : string) (ac : acceptCharset) (ae : acceptEncoding)
    (q : float) (i index : Z) :
  charsetSpecify c (mkAcceptCharset "*" q i) index
    = Some (mkSpecificity index i q (if String.eqb c "*" then 1 else 0))
  /\ charsetSpecify "*" ac index
    = (if String.eqb (charset ac) "*"
       then Some (mkSpecificity index (charset_i ac) (charset_q ac) 1)
       else None)
  /\ encodingSpecify c (mkAcceptEncoding "*" q i) index
    = Some (mkSpecificity index i q (if String.eqb c "*" then 1 else 0))
  /\ encodingSpecify "*" ae index
    = (if String.eqb (encoding ae) "*"
       then Some (mkSpecificity index (encoding_i ae) (encoding_q ae) 1)
       else None).
Proof.
  assert (Hc : String.eqb "*" (ToLower c) = String.eqb c "*").
  { rewrite String.eqb_sym. apply eqb_ToLower_star. }
  unfold charsetSpecify, encodingSpecify; cbn [charset charset_q charset_i
    encoding encoding_q encoding_i].
  change (ToLower "*") with "*". rewrite Hc, !eqb_ToLower_star.
  repeat split.
  - destruct (String.eqb c "*"); reflexivity.
  - destruct (String.eqb (charset ac) "*"); reflexivity.
  - destruct (String.eqb c "*"); reflexivity.
  - destruct (String.eqb (encoding ae) "*"); reflexivity.
Qed.

(** ** languageSpecify *)





(** ** The selectors at concrete headers *)

(** The pass that releases of Go before 1.19 make over a slice of seven to
    twelve elements before the insertion sort:
    [for i := a + 6; i < b; i++ { if data.Less(i, i-6) { data.Swap(i, i-6) } }]. *)
Fixpoint gapPass {A : Type} (less : A -> A -> bool) (n : nat) (data : list A)
    (i : nat) : list A :=
  match n with
  | O => data
  | S n' =>
      match data !! i, data !! (i - 6)%nat with
      | Some x, Some y =>
          gapPass less n'
            (if less x y then <[i := y]> (<[(i - 6)%nat := x]> data) else data) (S i)
      | _, _ => data
      end
  end.

Definition legacySort (A : Type) (less : A -> A -> bool) (data : list A) : list A :=
  insertionSort A less (gapPass less (length data - 6) data 6).

(** C1 (failing input).  The README's example: for the Accept header
    [text/html, application/*;q=0.2, image/jpeg;q=0.8] and the candidates
    text/html, text/plain, application/json the selector returns
    application/json (quality 0.2) before text/html (quality 1); the charset
    selector likewise returns utf-8 (quality 0.5) before iso-8859-1
    (quality 1). *)
Theorem candidate_order_not_by_quality :
  PreferredMediaTypes ParseFloat64 insertionSort
    "text/html, application/*;q=0.2, image/jpeg;q=0.8"
    ["text/html"; "text/plain"; "application/json"]
    = Ok ["application/json"; "text/html"]
  /\ PreferredCharsets ParseFloat64 insertionSort
    "utf-8;q=0.5, iso-8859-1" ["iso-8859-1"; "utf-8"]
    = Ok ["utf-8"; "iso-8859-1"].
Proof. split; vm_compute; reflexivity. Qed.

(** C2 (failing input).  A [q] parameter without [=] makes the charset and
    the language selector panic, whatever ParseFloat and sort.Sort do, while
    the media type selector drops the segment; and the comparator of the
    charset selector holds in both directions between an earlier entry of
    lower quality and a later entry of higher quality. *)
Theorem no_candidate_mode_failures (ParseFloat : string -> option float)
    (sort_Sort : forall A : Type, (A -> A -> bool) -> list A -> list A)
    (compareSpecs : specificity -> specificity -> bool) :
  PreferredCharsets ParseFloat sort_Sort "utf-8;q" [] = Panic
  /\ PreferredLanguages ParseFloat sort_Sort compareSpecs "en;q" [] = Panic
  /\ PreferredMediaTypes ParseFloat64 insertionSort "text/html;q" [] = Ok []
  /\ charsetLess (mkAcceptCharset "utf-8" 0.5 0) (mkAcceptCharset "utf-7" 1 1) = true
  /\ charsetLess (mkAcceptCharset "utf-7" 1 1) (mkAcceptCharset "utf-8" 0.5 0) = true.
Proof. repeat split; vm_compute; reflexivity. Qed.

(** With the sorting routine of the releases the repository builds with, a
    header of seven charsets whose last one has the highest quality comes out
    in header order. *)
Example legacy_sort_misorders :
  PreferredCharsets ParseFloat64 legacySort
    "a;q=0.5, b;q=0.5, c;q=0.5, d;q=0.5, e;q=0.5, f;q=0.5, g" []
    = Ok ["a"; "b"; "c"; "d"; "e"; "f"; "g"].
Proof. vm_compute; reflexivity. Qed.

(** C3 (counterexample).  The table of TestGetMediaTypePriority: for the
    candidate text/html the entry text/html matches with bits 6, quality 1
    and order 0, and the entry [text/*] with bits 4, a lower quality and
    order 1; the priority returned is the second one. *)
Lemma priority_is_not_the_most_specific :
  mediaTypeSpecify ParseFloat64 "text/html" (mkAcceptMediaType "text" "html" ∅ 1 0) 1
    = Ok (Some (mkSpecificity 1 0 1 6))
  /\ getMediaTypePriority ParseFloat64 "text/html"
       [mkAcceptMediaType "text" "html" ∅ 1 0; mkAcceptMediaType "text" "*" ∅ 0.5 1] 1
    = Ok (mkSpecificity 1 1 0.5 4).
Proof. split; vm_compute; reflexivity. Qed.

(** C4 (counterexample).  The only segment of [gzip;q=x] is dropped, so no
    entry has been parsed, and the entry added for identity has order 1. *)
Lemma identity_order_counts_segments :
  parseAcceptEncoding ParseFloat64 "gzip;q=x" = Ok [mkAcceptEncoding "identity" 1 1].
Proof. vm_compute; reflexivity. Qed.


(** C6 (counterexample).  The segment is accepted and its parameter [level],
    which follows [q], is not in the parameters of the entry. *)
Lemma parameter_after_q_is_dropped :
  parseMediaType ParseFloat64 "text/html;q=0.5;level=1" 0
    = Ok (Some (mkAcceptMediaType "text" "html" ∅ 0.5 0)).
Proof. vm_compute; reflexivity. Qed.

(** C7 (counterexample).  A candidate listed twice is returned twice. *)
Lemma repeated_candidate_is_repeated :
  PreferredCharsets ParseFloat64 insertionSort "utf-8" ["utf-8"; "utf-8"]
    = Ok ["utf-8"; "utf-8"]
  /\ PreferredMediaTypes ParseFloat64 insertionSort "text/html" ["text/html"; "text/html"]
    = Ok ["text/html"; "text/html"].
Proof. split; vm_compute; reflexivity. Qed.


(** ** Properties for every ParseFloat and every sorting routine that permutes *)

Ltac obind_simpl := unfold mbind, outcome_bind, obind in *; cbn in *.

Section Facts.

Variable ParseFloat : string -> option float.
Variable sort_Sort : forall A : Type, (A -> A -> bool) -> list A -> list A.
Variable compareSpecs : specificity -> specificity -> bool.

(** What [sort.Sort] does to a slice through its [Swap] alone. *)
Hypothesis sort_Sort_Permutation :
  forall (A : Type) (less : A -> A -> bool) (l : list A),
    Permutation (sort_Sort A less l) l.

(** *** The entry added for identity *)

(** The entries of the segments that parse, in header order, each with the
    position of its segment. *)
Fixpoint parsedEncodings (accepts : list string) (i : Z) : outcome (list acceptEncoding) :=
  match accepts with
  | [] => Ok []
  | a :: rest =>
      e ← parseEncoding ParseFloat (Trim a " ") i;
      es ← parsedEncodings rest (i + 1);
      Ok (match e with
          | Some x => x :: es
          | None => es
          end)
  end.

Definition matchesIdentity (e : acceptEncoding) : bool :=
  bool_decide (is_Some (encodingSpecify "identity" e 0)).

(** The least of 1.0 and the qualities, taken with [math.Min] in header order. *)
Definition minQualityOf (es : list acceptEncoding) : float :=
  fold_left math_Min (map encoding_q es) 1%float.

Lemma parseEncodings_parsed (accepts : list string) :
  forall (i : Z) (results : list acceptEncoding) (has : bool) (minq : float),
    parseEncodings ParseFloat accepts i results has minq
    = (es ← parsedEncodings accepts i;
       Ok ((results ++ es)%list, (has || existsb matchesIdentity es)%bool,
           fold_left math_Min (map encoding_q es) minq)).
Proof.
  induction accepts as [| a rest IH]; intros i results has minq.
  - obind_simpl. now rewrite app_nil_r, orb_false_r.
  - cbn [parseEncodings parsedEncodings]. obind_simpl.
    destruct (parseEncoding ParseFloat (Trim a " ") i) as [[x |] |]; [| | reflexivity].
    + rewrite IH. obind_simpl.
      destruct (parsedEncodings rest (i + 1)) as [es |]; [| reflexivity].
      cbn. unfold matchesIdentity at 2.
      now rewrite <- app_assoc, orb_assoc.
    + rewrite IH. obind_simpl.
      now destruct (parsedEncodings rest (i + 1)).
Qed.

(** C4 (amended).  parseAcceptEncoding returns the parsed entries, and
    when none of them matches identity it adds one entry for identity whose
    quality is the least of 1.0 and their qualities and whose order is the
    number of comma-separated segments of the header, dropped ones included. *)
Theorem parseAcceptEncoding_identity (accept : string) :
  parseAcceptEncoding ParseFloat accept
  = (es ← parsedEncodings (Split accept ",") 0;
     Ok (if existsb matchesIdentity es then es
         else (es ++ [mkAcceptEncoding "identity" (minQualityOf es)
                        (Z.of_nat (length (Split accept ",")))])%list)).
Proof.
  unfold parseAcceptEncoding. rewrite parseEncodings_parsed. obind_simpl.
  destruct (parsedEncodings (Split accept ",") 0) as [es |]; [| reflexivity].
  cbn. now destruct (existsb matchesIdentity es).
Qed.

(** *** Qualities *)






(** *** The priority loops *)

(** One round of a priority loop. *)
Definition keepBest (priority : specificity) (spec : option specificity) : specificity :=
  match spec with
  | Some spec => if replaces priority spec then spec else priority
  | None => priority
  end.

(** Orders above [lo], strictly increasing and within Go's [int]. *)
Fixpoint ascending (lo : Z) (os : list Z) : Prop :=
  match os with
  | [] => True
  | o :: rest => lo < o < 2 ^ 63 /\ ascending o rest
  end.

Lemma ascending_weaken (os : list Z) (lo lo' : Z) :
  lo' <= lo -> ascending lo os -> ascending lo' os.
Proof. destruct os as [| o rest]; cbn; [easy |]. intros ? [? ?]. split; [lia | easy]. Qed.

Lemma replaces_higher_order (p s : specificity) :
  -1 <= spec_o p -> spec_o p < spec_o s < 2 ^ 63 -> replaces p s = true.
Proof.
  intros Hp Hs. unfold replaces.
  assert (H : (int_sub (spec_o p) (spec_o s) <? 0) = true).
  { apply Z.ltb_lt. unfold int_sub, wrap64.
    rewrite Z.mod_small by lia. lia. }
  rewrite H. now rewrite orb_true_r.
Qed.

Lemma keepBest_last {A : Type} (f : A -> option specificity) (ord : A -> Z) :
  (forall a s, f a = Some s -> spec_o s = ord a) ->
  forall (acs : list A) (p0 : specificity),
    -1 <= spec_o p0 -> ascending (spec_o p0) (map ord acs) ->
    fold_left (fun p a => keepBest p (f a)) acs p0 = default p0 (last (omap f acs)).
Proof.
  intros Hord. induction acs as [| a rest IH]; intros p0 Hp0 Hasc; [reflexivity |].
  cbn in Hasc. destruct Hasc as [Ha Hrest]. cbn [fold_left omap list_omap].
  destruct (f a) as [s |] eqn:Ef; cbn [keepBest].
  - pose proof (Hord a s Ef) as Ho.
    rewrite replaces_higher_order by (rewrite ?Ho; lia).
    rewrite IH by (rewrite ?Ho; try lia; exact Hrest).
    rewrite last_cons. now destruct (last (omap f rest)).
  - apply IH; [exact Hp0 |]. apply ascending_weaken with (ord a); [lia | exact Hrest].
Qed.

(** What languageSpecify and mediaTypeSpecify compute once the candidate is
    parsed. *)
Definition languageScore (p : option acceptLanguage) (ac : acceptLanguage) (index : Z)
    : option specificity :=
  match p with
  | None => None
  | Some p =>
      if String.eqb (ToLower (full ac)) (ToLower (full p))
      then Some (mkSpecificity index (language_i ac) (language_q ac) (Z.lor 0 4))
      else if String.eqb (ToLower (prefix ac)) (ToLower (full p))
      then Some (mkSpecificity index (language_i ac) (language_q ac) (Z.lor 0 2))
      else if String.eqb (ToLower (full ac)) (ToLower (prefix p))
      then Some (mkSpecificity index (language_i ac) (language_q ac) (Z.lor 0 1))
      else if negb (String.eqb (full ac) "*") then None
      else Some (mkSpecificity index (language_i ac) (language_q ac) 0)
  end.

Lemma languageSpecify_score (language : string) (ac : acceptLanguage) (index : Z) :
  languageSpecify ParseFloat language ac index
  = (p ← parseLanguage ParseFloat language index; Ok (languageScore p ac index)).
Proof. reflexivity. Qed.

Lemma languageScore_order (p : option acceptLanguage) (ac : acceptLanguage)
    (index : Z) (s : specificity) :
  languageScore p ac index = Some s -> spec_o s = language_i ac /\ spec_i s = index.
Proof.
  unfold languageScore. destruct p as [p |]; [| discriminate].
  repeat match goal with |- context [if ?b then _ else _] => destruct b end;
    try discriminate; now intros [= <-].
Qed.

Definition mediaTypeScore (p : option acceptMediaType) (ac : acceptMediaType) (index : Z)
    : option specificity :=
  p ← p;
  s ← (if String.eqb (ToLower (mainType ac)) (ToLower (mainType p))
       then Some (Z.lor 0 4)
       else if negb (String.eqb (mainType ac) "*") then None else Some 0);
  s ← (if String.eqb (ToLower (subtype ac)) (ToLower (subtype p))
       then Some (Z.lor s 2)
       else if negb (String.eqb (subtype ac) "*") then None else Some s);
  let keys := map_to_list (params ac) in
  s ← (if 0 <? Z.of_nat (length keys)
       then if forallb (paramMatches p) keys then Some (Z.lor s 1) else None
       else Some s);
  Some (mkSpecificity index (mediaType_i ac) (mediaType_q ac) s).

Lemma mediaTypeSpecify_score (mediaType : string) (ac : acceptMediaType) (index : Z) :
  mediaTypeSpecify ParseFloat mediaType ac index
  = (p ← parseMediaType ParseFloat mediaType index; Ok (mediaTypeScore p ac index)).
Proof. reflexivity. Qed.

Lemma mediaTypeScore_order (p : option acceptMediaType) (ac : acceptMediaType)
    (index : Z) (s : specificity) :
  mediaTypeScore p ac index = Some s -> spec_o s = mediaType_i ac /\ spec_i s = index.
Proof.
  unfold mediaTypeScore. destruct p as [p |]; [| discriminate]. cbn.
  repeat match goal with
         | |- context [if ?b then _ else _] => destruct b; cbn
         end; try discriminate; now intros [= <-].
Qed.

Lemma charsetSpecify_order (cs : string) (ac : acceptCharset) (index : Z) (s : specificity) :
  charsetSpecify cs ac index = Some s -> spec_o s = charset_i ac /\ spec_i s = index.
Proof.
  unfold charsetSpecify.
  repeat match goal with |- context [if ?b then _ else _] => destruct b end;
    try discriminate; now intros [= <-].
Qed.

Lemma getLanguagePriority_fold (language : string) (index : Z) (p : option acceptLanguage) :
  parseLanguage ParseFloat language index = Ok p ->
  forall (acs : list acceptLanguage) (p0 : specificity),
    getLanguagePriority_from ParseFloat language acs index p0
    = Ok (fold_left (fun pr ac => keepBest pr (languageScore p ac index)) acs p0).
Proof.
  intros Hp. induction acs as [| ac rest IH]; intros p0; [reflexivity |].
  cbn [getLanguagePriority_from fold_left]. rewrite languageSpecify_score, Hp.
  obind_simpl. apply IH.
Qed.

Lemma getMediaTypePriority_fold (mediaType : string) (index : Z) (p : option acceptMediaType) :
  parseMediaType ParseFloat mediaType index = Ok p ->
  forall (acs : list acceptMediaType) (p0 : specificity),
    getMediaTypePriority_from ParseFloat mediaType acs index p0
    = Ok (fold_left (fun pr ac => keepBest pr (mediaTypeScore p ac index)) acs p0).
Proof.
  intros Hp. induction acs as [| ac rest IH]; intros p0; [reflexivity |].
  cbn [getMediaTypePriority_from fold_left]. rewrite mediaTypeSpecify_score, Hp.
  unfold mbind at 1, outcome_bind, obind. apply IH.
Qed.

Lemma Forall2_map_r_eq {A B : Type} (R : A -> B -> Prop) (f : A -> B) (l : list A) :
  (forall a, R a (f a)) -> Forall2 R l (map f l).
Proof. intros H. induction l; cbn; constructor; auto. Qed.

Lemma omap_id_map {A B : Type} (f : A -> option B) (l : list A) :
  omap id (map f l) = omap f l.
Proof. induction l as [| a l IH]; cbn; [reflexivity |]. rewrite IH. now destruct (f a). Qed.

(** C3 (amended).  On entries whose orders are non-negative and strictly
    increasing, as in every parsed header, each priority function returns
    the score of the last entry of the list that matches the candidate, and
    the initial score when none matches: a later match has the greater entry
    order, and the loop replaces its result as soon as one of bits, quality
    and order is greater. *)
Theorem priority_is_last_match :
  (forall cs acs index,
      ascending (-1) (map charset_i acs) ->
      getCharsetPriority cs acs index
      = default noPriority (last (omap (fun ac => charsetSpecify cs ac index) acs)))
  /\ (forall language acs index p,
         parseLanguage ParseFloat language index = Ok p ->
         ascending (-1) (map language_i acs) ->
         exists specs,
           Forall2 (fun ac spec => languageSpecify ParseFloat language ac index = Ok spec)
                   acs specs
           /\ getLanguagePriority ParseFloat language acs index
              = Ok (default noPriority (last (omap id specs))))
  /\ (forall mediaType acs index p,
         parseMediaType ParseFloat mediaType index = Ok p ->
         ascending (-1) (map mediaType_i acs) ->
         exists specs,
           Forall2 (fun ac spec => mediaTypeSpecify ParseFloat mediaType ac index = Ok spec)
                   acs specs
           /\ getMediaTypePriority ParseFloat mediaType acs index
              = Ok (default noPriority (last (omap id specs)))).
Proof.
  repeat split.
  - intros cs acs index Hasc. unfold getCharsetPriority.
    apply (keepBest_last (fun ac => charsetSpecify cs ac index) charset_i);
      [| cbn; lia | exact Hasc].
    intros a s H. now apply charsetSpecify_order in H.
  - intros language acs index p Hp Hasc.
    exists (map (fun ac => languageScore p ac index) acs). split.
    + apply Forall2_map_r_eq. intros ac. now rewrite languageSpecify_score, Hp.
    + unfold getLanguagePriority. rewrite (getLanguagePriority_fold _ _ _ Hp).
      f_equal. rewrite omap_id_map.
      apply (keepBest_last (fun ac => languageScore p ac index) language_i);
        [| cbn; lia | exact Hasc].
      intros a s H. now apply languageScore_order in H.
  - intros mediaType acs index p Hp Hasc.
    exists (map (fun ac => mediaTypeScore p ac index) acs). split.
    + apply Forall2_map_r_eq. intros ac. now rewrite mediaTypeSpecify_score, Hp.
    + unfold getMediaTypePriority. rewrite (getMediaTypePriority_fold _ _ _ Hp).
      f_equal. rewrite omap_id_map.
      apply (keepBest_last (fun ac => mediaTypeScore p ac index) mediaType_i);
        [| cbn; lia | exact Hasc].
      intros a s H. now apply mediaTypeScore_order in H.
Qed.

(** The parsers number their entries by segment, so the orders of a parsed
    header ascend. *)
Lemma parseCharsets_ascending (accepts : list string) :
  forall (i lo : Z) (acs : list acceptCharset),
    parseCharsets ParseFloat accepts i = Ok acs ->
    lo < i -> i + Z.of_nat (length accepts) <= 2 ^ 63 ->
    ascending lo (map charset_i acs).
Proof.
  induction accepts as [| a rest IH]; intros i lo acs; cbn [parseCharsets].
  - intros [= <-]. easy.
  - obind_simpl. unfold parseCharset.
    destruct (simpleCharsetRegExp (Trim a " ")) as [[cs ps] |];
      obind_simpl.
    + destruct (qualityOf ParseFloat ps) as [[q |] |]; try discriminate;
        destruct (parseCharsets ParseFloat rest (i + 1)) as [acs' |] eqn:E;
        try discriminate; intros [= <-] Hlo Hlen.
      * cbn. split; [lia |]. apply (IH (i + 1)); [exact E | lia | lia].
      * apply (IH (i + 1)); [exact E | lia | lia].
    + destruct (parseCharsets ParseFloat rest (i + 1)) as [acs' |] eqn:E;
        try discriminate; intros [= <-] Hlo Hlen.
      apply (IH (i + 1)); [exact E | lia | lia].
Qed.

(** *** The parameters of a media type entry *)

(** The value [unquote] returns. *)
Definition unquoted (val : string) : string :=
  if (negb (String.eqb val "")
      && bool_decide (String.get 0 val = Some dquote)
      && bool_decide (String.get (String.length val - 1) val = Some dquote))%bool
  then substring 1 (Z.to_nat (Z.max (len val - 1) 1 - 1)) val
  else val.

(** The slice of [unquote] is always within the value. *)
Lemma unquote_unquoted (val : string) : unquote val = Ok (unquoted val).
Proof.
  unfold unquote, unquoted, slice.
  destruct (negb (String.eqb val "")) eqn:Hne; [| reflexivity]. cbn [andb].
  destruct (bool_decide (String.get 0 val = Some dquote)
            && bool_decide (String.get (String.length val - 1) val = Some dquote))%bool;
    [| reflexivity].
  assert (Hlen : 1 <= len val).
  { destruct val; [discriminate |]. unfold len. cbn [String.length]. lia. }
  replace ((0 <=? 1) && (1 <=? Z.max (len val - 1) 1)
           && (Z.max (len val - 1) 1 <=? len val))%bool with true; [reflexivity |].
  symmetry. rewrite !andb_true_iff, !Z.leb_le. lia.
Qed.

Lemma get_last_append (w : string) (c : ascii) :
  String.get (String.length w) (w +:+ String c "") = Some c.
Proof.
  induction w as [| a w IH]; [reflexivity |].
  change (String a w +:+ String c "") with (String a (w +:+ String c "")).
  exact IH.
Qed.

Lemma substring_prefix_append (w t : string) :
  substring 0 (String.length w) (w +:+ t) = w.
Proof.
  induction w as [| a w IH].
  - now destruct t.
  - change (String a w +:+ t) with (String a (w +:+ t)).
    cbn [String.length substring]. now rewrite IH.
Qed.

Lemma length_append_one (w : string) (c : ascii) :
  String.length (w +:+ String c "") = S (String.length w).
Proof.
  induction w as [| a w IH]; [reflexivity |].
  change (String a w +:+ String c "") with (String a (w +:+ String c "")).
  cbn [String.length]. now rewrite IH.
Qed.

Lemma unquoted_quoted (w : string) :
  unquoted (String dquote (w +:+ String dquote "")) = w.
Proof.
  unfold unquoted, len. cbn [String.length String.eqb negb andb].
  rewrite length_append_one.
  replace (S (S (String.length w)) - 1)%nat with (S (String.length w)) by lia.
  cbn [String.get]. rewrite get_last_append.
  rewrite !bool_decide_eq_true_2 by reflexivity. cbn [andb].
  replace (Z.to_nat (Z.max (Z.of_nat (S (S (String.length w))) - 1) 1 - 1))
    with (String.length w) by lia.
  cbn [substring]. apply substring_prefix_append.
Qed.

Definition isQ (kv : string * string) : bool := String.eqb (ToLower kv.1) "q".

(** The key-value pairs that stand before the first one whose key is [q]. *)
Fixpoint beforeQ (arr : list (string * string)) : list (string * string) :=
  match arr with
  | [] => []
  | kv :: rest => if isQ kv then [] else kv :: beforeQ rest
  end.

Definition record (m : gmap string string) (kv : string * string) : gmap string string :=
  <[ToLower kv.1 := unquoted kv.2]> m.

Lemma mediaParams_recorded (arr : list (string * string)) :
  forall (m m' : gmap string string) (q0 q : float),
    mediaParams ParseFloat arr m q0 = Ok (Some (m', q)) ->
    m' = fold_left record (beforeQ arr) m.
Proof.
  induction arr as [| kv rest IH]; intros m m' q0 q; cbn [mediaParams beforeQ].
  - now intros [= <- _].
  - rewrite unquote_unquoted. obind_simpl. unfold isQ.
    destruct (String.eqb (ToLower kv.1) "q").
    + destruct (ParseFloat (unquoted kv.2)); [| discriminate]. now intros [= <- _].
    + intros H. apply IH in H. exact H.
Qed.

Lemma fold_record_last (post : list (string * string)) :
  forall (m : gmap string string) (k v : string),
    m !! k = Some v ->
    Forall (fun kv' => ToLower kv'.1 <> k) post ->
    fold_left record post m !! k = Some v.
Proof.
  induction post as [| kv post IH]; intros m k v Hm Hpost; [exact Hm |].
  inversion Hpost as [| ? ? Hkv Hrest]; subst. cbn [fold_left].
  apply IH; [| exact Hrest]. unfold record. now rewrite lookup_insert_ne.
Qed.

Lemma fold_record_lookup (l : list (string * string)) :
  forall (m : gmap string string) (k v : string),
    fold_left record l m !! k = Some v ->
    m !! k = Some v \/ exists kv, In kv l /\ ToLower kv.1 = k /\ unquoted kv.2 = v.
Proof.
  induction l as [| kv l IH]; intros m k v H; [now left |].
  cbn [fold_left] in H. apply IH in H as [H | (kv' & Hin & Hk & Hv)].
  - unfold record in H. destruct (decide (ToLower kv.1 = k)) as [E | E].
    + rewrite E, lookup_insert_eq in H. injection H as H.
      right. exists kv. cbn. auto.
    + rewrite lookup_insert_ne in H by exact E. now left.
  - right. exists kv'. cbn. auto.
Qed.

(** C6 (amended).  For an accepted segment, the parameters that stand
    before the first parameter whose lowercased key is [q] are recorded
    under their lowercased keys with the quotes of a quoted value stripped,
    the last of several with one key winning; a parameter from that [q] on
    is not recorded.  Stripping never leaves the value: a value between two
    quotes loses both, and the value that is one quote becomes empty. *)
Theorem parseMediaType_parameters (s : string) (i : Z) (e : acceptMediaType) :
  parseMediaType ParseFloat s i = Ok (Some e) ->
  exists (mt st ps : string) (kvps : list string),
    simpleMediaTypeRegExp s = Some (mt, st, ps)
    /\ (if String.eqb ps "" then kvps = [] else splitParameters ps = Ok kvps)
    /\ (forall pre kv post,
           beforeQ (map splitKeyValuePair kvps) = (pre ++ kv :: post)%list ->
           Forall (fun kv' => ToLower kv'.1 <> ToLower kv.1) post ->
           params e !! ToLower kv.1 = Some (unquoted kv.2))
    /\ (forall k v,
           params e !! k = Some v ->
           exists kv, In kv (beforeQ (map splitKeyValuePair kvps))
                      /\ ToLower kv.1 = k /\ unquoted kv.2 = v)
    /\ (forall val, unquote val = Ok (unquoted val))
    /\ (forall w, unquoted (String dquote (w +:+ String dquote "")) = w)
    /\ unquote (String dquote "") = Ok "".
Proof.
  unfold parseMediaType.
  destruct (simpleMediaTypeRegExp s) as [[[mt st] ps] |]; [| discriminate].
  destruct (String.eqb ps "") eqn:Eps; cbn [negb].
  - intros [= <-]. exists mt, st, ps, []. rewrite Eps. cbn.
    repeat split; try reflexivity.
    + intros pre kv post H. now destruct pre.
    + intros k v H. now rewrite lookup_empty in H.
    + apply unquote_unquoted.
    + apply unquoted_quoted.
  - obind_simpl. destruct (splitParameters ps) as [kvps |] eqn:Esp; [| discriminate].
    destruct (mediaParams ParseFloat (map splitKeyValuePair kvps) ∅ 1)
      as [[[m q] |] |] eqn:Em; try discriminate.
    intros [= <-]. cbn. apply mediaParams_recorded in Em.
    exists mt, st, ps, kvps. rewrite Eps.
    repeat split; try reflexivity; try exact Esp.
    + intros pre kv post H Hpost. rewrite Em, H, fold_left_app. cbn [fold_left].
      apply fold_record_last; [| exact Hpost]. unfold record at 1.
      apply lookup_insert_eq.
    + intros k v H. rewrite Em in H. apply fold_record_lookup in H as [H | H].
      * now rewrite lookup_empty in H.
      * exact H.
    + apply unquote_unquoted.
    + apply unquoted_quoted.
Qed.

(** *** No candidates *)



(** *** Candidates in the result *)

(** Every score of quality above 0 holds the index of its own slot, the
    slots being counted from [off]. *)
Definition placed (off : nat) (ps : list specificity) : Prop :=
  forall k p, ps !! k = Some p -> isSpecificityQuality p = true ->
              spec_i p = Z.of_nat (off + k).

Lemma specificity_eqb_refl (v : specificity) :
  isSpecificityQuality v = true -> specificity_eqb v v = true.
Proof.
  intros H. unfold specificity_eqb.
  rewrite !Z.eqb_refl, (eqb_refl_positive _ H). reflexivity.
Qed.

Lemma specificity_eqb_quality (w v : specificity) :
  specificity_eqb w v = true -> isSpecificityQuality v = true ->
  isSpecificityQuality w = true /\ spec_i w = spec_i v.
Proof.
  unfold specificity_eqb. intros H Hv.
  apply andb_prop in H as [H _]. apply andb_prop in H as [H Hq].
  apply andb_prop in H as [Hi _]. apply Z.eqb_eq in Hi.
  split; [| exact Hi]. exact (eqb_positive _ _ Hq Hv).
Qed.

Lemma indexOf_from_found (v : specificity) :
  forall (ss : list specificity) (n : nat) (k0 : Z),
    ss !! n = Some v -> specificity_eqb v v = true ->
    (forall m w, (m < n)%nat -> ss !! m = Some w -> specificity_eqb w v = false) ->
    indexOf_from ss v k0 = k0 + Z.of_nat n.
Proof.
  induction ss as [| w ss IH]; intros n k0 Hn Hv Hbefore; [discriminate |].
  destruct n as [| n]; cbn [indexOf_from].
  - cbn in Hn. injection Hn as ->. rewrite Hv. lia.
  - rewrite (Hbefore 0%nat w) by (cbn; (lia || reflexivity)).
    rewrite (IH n (k0 + 1)); [lia | exact Hn | exact Hv |].
    intros m w' Hm Hw'. apply (Hbefore (S m) w'); [lia | exact Hw'].
Qed.

Lemma indexOf_placed (ps : list specificity) (v : specificity) :
  placed 0 ps -> In v ps -> isSpecificityQuality v = true ->
  indexOf ps v = spec_i v /\ ps !! Z.to_nat (spec_i v) = Some v.
Proof.
  intros Hpl Hin Hq.
  apply list_elem_of_In, list_elem_of_lookup in Hin as [n Hn].
  pose proof (Hpl n v Hn Hq) as Hi. cbn in Hi.
  split; [| now rewrite Hi, Nat2Z.id].
  unfold indexOf. rewrite (indexOf_from_found v ps n 0 Hn); [lia | |].
  - now apply specificity_eqb_refl.
  - intros m w Hm Hw. destruct (specificity_eqb w v) eqn:E; [| reflexivity].
    apply specificity_eqb_quality in E as [Hwq Hwi]; [| exact Hq].
    pose proof (Hpl m w Hw Hwq) as Hmi. cbn in Hmi. lia.
Qed.

Lemma collect_placed (ps : list specificity) (provided : list string) :
  placed 0 ps -> length provided = length ps ->
  forall sorted,
    Forall (fun v => In v ps /\ isSpecificityQuality v = true) sorted ->
    exists out,
      collect ps provided sorted = Ok out
      /\ Forall2 (fun v x => provided !! Z.to_nat (spec_i v) = Some x) sorted out.
Proof.
  intros Hpl Hlen. induction sorted as [| v rest IH]; intros HF.
  - exists []. split; [reflexivity | constructor].
  - inversion HF as [| ? ? [Hin Hq] HF']; subst.
    destruct (IH HF') as (out & Hout & Hall).
    destruct (indexOf_placed ps v Hpl Hin Hq) as [Hidx Hlook].
    assert (Hlt : (Z.to_nat (spec_i v) < length provided)%nat).
    { rewrite Hlen. apply lookup_lt_is_Some. now exists v. }
    apply lookup_lt_is_Some in Hlt as [x Hx].
    exists (x :: out). split; [| now constructor].
    cbn [collect]. rewrite Hidx.
    assert (H0 : (0 <=? spec_i v) = true).
    { apply Z.leb_le.
      apply list_elem_of_In, list_elem_of_lookup in Hin as [n Hn].
      rewrite (Hpl n v Hn Hq). lia. }
    rewrite H0, Hx, Hout. reflexivity.
Qed.

Lemma placed_NoDup :
  forall (ps : list specificity) (off : nat),
    placed off ps ->
    NoDup (map (fun v => Z.to_nat (spec_i v)) (List.filter isSpecificityQuality ps))
    /\ Forall (fun v => (off <= Z.to_nat (spec_i v))%nat)
              (List.filter isSpecificityQuality ps).
Proof.
  induction ps as [| p ps IH]; intros off Hpl.
  - cbn. split; constructor.
  - assert (Htl : placed (S off) ps).
    { intros k q Hk Hq. rewrite (Hpl (S k) q Hk Hq). f_equal. lia. }
    destruct (IH (S off) Htl) as [Hnd Hge].
    assert (Hge' : Forall (fun v => (off <= Z.to_nat (spec_i v))%nat)
                          (List.filter isSpecificityQuality ps)).
    { eapply Forall_impl; [exact Hge |]. cbn. intros; lia. }
    cbn [List.filter]. destruct (isSpecificityQuality p) eqn:Hp; [| now split].
    pose proof (Hpl 0%nat p eq_refl Hp) as Hi.
    split; [| constructor; [rewrite Hi; lia | exact Hge']].
    cbn [map]. apply NoDup_cons. split; [| exact Hnd].
    intros Hin. apply list_elem_of_In, in_map_iff in Hin as (q & Heq & Hq).
    apply list_elem_of_In in Hq. rewrite Forall_forall in Hge. apply Hge in Hq.
    rewrite Hi in Heq. lia.
Qed.

(** The shape of a result of the candidate branch: the candidates found at
    pairwise distinct positions of [provided]. *)
Definition chosen (provided out : list string) : Prop :=
  exists idxs : list nat,
    NoDup idxs /\ Forall2 (fun i x => provided !! i = Some x) idxs out.

Lemma chosen_subset (provided out : list string) :
  chosen provided out -> Forall (fun x => In x provided) out.
Proof.
  intros (idxs & _ & HF). induction HF as [| i x idxs out Hi _ IH]; constructor.
  - apply list_elem_of_In. eapply list_elem_of_lookup_2. exact Hi.
  - exact IH.
Qed.

Lemma chosen_NoDup (provided out : list string) :
  chosen provided out -> NoDup provided -> NoDup out.
Proof.
  intros (idxs & Hnd & HF) Hprov.
  induction HF as [| i x idxs out Hi HF IH]; [constructor |].
  apply NoDup_cons in Hnd as [Hni Hnd]. apply NoDup_cons. split; [| now apply IH].
  intros Hx. apply Hni. clear IH Hni Hnd.
  induction HF as [| j y idxs out Hj _ IH]; [now apply not_elem_of_nil in Hx |].
  apply elem_of_cons in Hx as [<- | Hx].
  - rewrite (NoDup_lookup provided i j x Hprov Hi Hj). apply elem_of_cons. now left.
  - apply elem_of_cons. right. now apply IH.
Qed.

Lemma Forall2_map_l {A B C : Type} (R : B -> C -> Prop) (f : A -> B) (l : list A)
    (k : list C) :
  Forall2 (fun a c => R (f a) c) l k -> Forall2 R (map f l) k.
Proof. induction 1; cbn; constructor; auto. Qed.

Lemma collect_sorted (ps : list specificity) (provided : list string)
    (less : specificity -> specificity -> bool) :
  placed 0 ps -> length provided = length ps ->
  exists out,
    collect ps provided (sort_Sort _ less (List.filter isSpecificityQuality ps)) = Ok out
    /\ chosen provided out.
Proof.
  intros Hpl Hlen.
  pose proof (sort_Sort_Permutation _ less (List.filter isSpecificityQuality ps)) as HP.
  destruct (collect_placed ps provided Hpl Hlen
              (sort_Sort _ less (List.filter isSpecificityQuality ps))) as (out & Hout & HF).
  { apply Forall_forall. intros v Hv. apply list_elem_of_In in Hv.
    apply (Permutation_in _ HP), filter_In in Hv. exact Hv. }
  exists out. split; [exact Hout |].
  exists (map (fun v => Z.to_nat (spec_i v))
              (sort_Sort _ less (List.filter isSpecificityQuality ps))). split.
  - apply (proj2 (NoDup_Permutation_proper _ _ (Permutation_map _ HP))).
    apply (placed_NoDup ps 0 Hpl).
  - now apply Forall2_map_l.
Qed.

(** A priority loop leaves the candidate's index in every score it returns,
    the initial one apart. *)
Lemma keepBest_index {A : Type} (f : A -> option specificity) (index : Z) :
  (forall a s, f a = Some s -> spec_i s = index) ->
  forall (acs : list A) (p0 : specificity),
    p0 = noPriority \/ spec_i p0 = index ->
    fold_left (fun p a => keepBest p (f a)) acs p0 = noPriority
    \/ spec_i (fold_left (fun p a => keepBest p (f a)) acs p0) = index.
Proof.
  intros Hf. induction acs as [| a rest IH]; intros p0 Hp0; [exact Hp0 |].
  cbn [fold_left]. apply IH. unfold keepBest.
  destruct (f a) as [s |] eqn:E; [| exact Hp0].
  destruct (replaces p0 s); [| exact Hp0]. right. now apply Hf in E.
Qed.

Lemma quality_index (p : specificity) (index : Z) :
  p = noPriority \/ spec_i p = index -> isSpecificityQuality p = true -> spec_i p = index.
Proof. intros [-> | H] Hq; [discriminate Hq | exact H]. Qed.

Lemma getCharsetSpecificities_placed (acs : list acceptCharset) :
  forall (types : list string) (off : nat),
    placed off (getCharsetSpecificities_from types acs (Z.of_nat off))
    /\ length (getCharsetSpecificities_from types acs (Z.of_nat off)) = length types.
Proof.
  induction types as [| v rest IH]; intros off.
  - split; [intros k p Hk; discriminate Hk | reflexivity].
  - cbn [getCharsetSpecificities_from].
    replace (Z.of_nat off + 1) with (Z.of_nat (S off)) by lia.
    destruct (IH (S off)) as [Hpl Hlen]. split; [| cbn; now rewrite Hlen].
    intros [| k] p Hk Hq.
    + cbn in Hk. injection Hk as <-. rewrite Nat.add_0_r.
      revert Hq. apply quality_index. unfold getCharsetPriority.
      apply (keepBest_index (fun ac => charsetSpecify v ac (Z.of_nat off))); [| now left].
      intros a s H. now apply charsetSpecify_order in H.
    + rewrite (Hpl k p Hk Hq). f_equal. lia.
Qed.

Lemma getMediaTypeSpecificities_placed (acs : list acceptMediaType) :
  forall (types : list string) (off : nat) (ps : list specificity),
    getMediaTypeSpecificities_from ParseFloat types acs (Z.of_nat off) = Ok ps ->
    placed off ps /\ length ps = length types.
Proof.
  induction types as [| v rest IH]; intros off ps.
  - intros [= <-]. split; [intros k p Hk; discriminate Hk | reflexivity].
  - cbn [getMediaTypeSpecificities_from].
    replace (Z.of_nat off + 1) with (Z.of_nat (S off)) by lia.
    destruct (getMediaTypePriority ParseFloat v acs (Z.of_nat off)) as [p0 |] eqn:Ep;
      [| discriminate].
    destruct (getMediaTypeSpecificities_from ParseFloat rest acs (Z.of_nat (S off)))
      as [ps' |] eqn:Eps; [| discriminate].
    obind_simpl. intros [= <-].
    destruct (IH (S off) ps' Eps) as [Hpl Hlen]. split; [| cbn; now rewrite Hlen].
    intros [| k] p Hk Hq.
    + cbn in Hk. injection Hk as <-. rewrite Nat.add_0_r.
      revert Hq. apply quality_index.
      unfold getMediaTypePriority in Ep.
      destruct (parseMediaType ParseFloat v (Z.of_nat off)) as [pm |] eqn:Epm.
      * rewrite (getMediaTypePriority_fold _ _ _ Epm) in Ep. injection Ep as <-.
        apply (keepBest_index (fun ac => mediaTypeScore pm ac (Z.of_nat off)));
          [| now left].
        intros a s H. now apply mediaTypeScore_order in H.
      * destruct acs as [| ac acs']; [injection Ep as <-; now left |].
        cbn [getMediaTypePriority_from] in Ep.
        rewrite mediaTypeSpecify_score, Epm in Ep. discriminate Ep.
    + rewrite (Hpl k p Hk Hq). f_equal. lia.
Qed.

(** *** mediatype.go returns *)

Lemma Split_length (s : string) (sep : ascii) : (1 <= length (Split s sep))%nat.
Proof.
  induction s as [| c s IH]; cbn; [lia |].
  destruct (Ascii.eqb c sep); cbn; [lia |].
  destruct (Split s sep); cbn in *; lia.
Qed.

Lemma joinQuoted_returns (sep : string) :
  forall (n : nat) (arr : list string) (i j : nat),
    (j < i)%nat -> (i + n = length arr)%nat ->
    exists arr' j',
      joinQuoted sep n arr i j = Ok (arr', j') /\ (j' < length arr')%nat.
Proof.
  induction n as [| n IH]; intros arr i j Hji Hlen.
  - exists arr, j. split; [reflexivity | lia].
  - cbn [joinQuoted].
    destruct (lookup_lt_is_Some_2 arr j) as [aj ->]; [lia |].
    destruct (lookup_lt_is_Some_2 arr i) as [ai ->]; [lia |].
    destruct (quoteCount aj mod 2 =? 0).
    + rewrite bool_decide_true by lia.
      apply IH; [lia | rewrite length_insert; lia].
    + apply IH; [lia | rewrite length_insert; lia].
Qed.

Lemma splitMediaTypes_returns (accept : string) :
  exists accepts, splitMediaTypes accept = Ok accepts.
Proof.
  unfold splitMediaTypes. pose proof (Split_length accept ",") as H1.
  destruct (joinQuoted_returns "," (length (Split accept ",") - 1) (Split accept ",") 1 0)
    as (arr & j & -> & Hj); [lia | lia |].
  obind_simpl. unfold upTo. rewrite bool_decide_true by lia. eauto.
Qed.

Lemma splitParameters_returns (str : string) :
  exists parameters, splitParameters str = Ok parameters.
Proof.
  unfold splitParameters. pose proof (Split_length str ";") as H1.
  destruct (joinQuoted_returns ";" (length (Split str ";") - 1) (Split str ";") 1 0)
    as (arr & j & -> & Hj); [lia | lia |].
  obind_simpl. unfold upTo. rewrite bool_decide_true by lia. eauto.
Qed.

Lemma mediaParams_returns (arr : list (string * string)) :
  forall (ps : gmap string string) (q : float),
    exists r, mediaParams ParseFloat arr ps q = Ok r.
Proof.
  induction arr as [| kv rest IH]; intros ps q; [cbn; eauto |].
  cbn [mediaParams]. rewrite unquote_unquoted. obind_simpl.
  destruct (String.eqb (ToLower kv.1) "q"); [eauto | apply IH].
Qed.

Lemma parseMediaType_returns (s : string) (i : Z) :
  exists r, parseMediaType ParseFloat s i = Ok r.
Proof.
  unfold parseMediaType.
  destruct (simpleMediaTypeRegExp s) as [[[mt st] ps] |]; [| eauto].
  destruct (negb (String.eqb ps "")); [| eauto].
  destruct (splitParameters_returns ps) as [kvps ->].
  destruct (mediaParams_returns (map splitKeyValuePair kvps) ∅ 1%float) as [r Hr].
  obind_simpl. rewrite Hr. eauto.
Qed.

Lemma parseMediaTypes_returns (accepts : list string) :
  forall i, exists acs, parseMediaTypes ParseFloat accepts i = Ok acs.
Proof.
  induction accepts as [| a rest IH]; intros i; [cbn; eauto |].
  cbn [parseMediaTypes].
  destruct (parseMediaType_returns (Trim a " ") i) as [m ->].
  destruct (IH (i + 1)) as [ms ->]. obind_simpl. eauto.
Qed.

Lemma parseAcceptMediaType_returns (accept : string) :
  exists acs, parseAcceptMediaType ParseFloat accept = Ok acs.
Proof.
  unfold parseAcceptMediaType. destruct (splitMediaTypes_returns accept) as [l ->].
  obind_simpl. apply parseMediaTypes_returns.
Qed.

Lemma getMediaTypeSpecificities_returns (acs : list acceptMediaType) :
  forall (types : list string) (i : Z),
    exists ps, getMediaTypeSpecificities_from ParseFloat types acs i = Ok ps.
Proof.
  induction types as [| v rest IH]; intros i; [cbn; eauto |].
  cbn [getMediaTypeSpecificities_from]. unfold getMediaTypePriority.
  destruct (parseMediaType_returns v i) as [p Hp].
  rewrite (getMediaTypePriority_fold _ _ _ Hp).
  destruct (IH (i + 1)) as [ps ->]. obind_simpl. eauto.
Qed.

(** C7 (amended).  With at least one candidate, PreferredCharsets (once the
    header is parsed) and PreferredMediaTypes (always) return candidates taken
    at pairwise distinct positions of [provided]: every returned string is a
    candidate, and a candidate list without repetition gives a result without
    repetition.  A candidate given twice can come out twice. *)
Theorem result_is_chosen_from_candidates (accept : string) (provided : list string) :
  provided <> [] ->
  (forall acs, parseAcceptCharset ParseFloat accept = Ok acs ->
     exists out, PreferredCharsets ParseFloat sort_Sort accept provided = Ok out
       /\ chosen provided out
       /\ Forall (fun x => In x provided) out
       /\ (NoDup provided -> NoDup out))
  /\ (exists out, PreferredMediaTypes ParseFloat sort_Sort accept provided = Ok out
       /\ chosen provided out
       /\ Forall (fun x => In x provided) out
       /\ (NoDup provided -> NoDup out)).
Proof.
  intros Hne.
  assert (H0 : (Z.of_nat (length provided) =? 0) = false).
  { destruct provided; [contradiction | reflexivity]. }
  split.
  - intros acs Hacs. unfold PreferredCharsets. rewrite Hacs. obind_simpl. rewrite H0.
    destruct (getCharsetSpecificities_placed acs provided 0) as [Hpl Hlen].
    destruct (collect_sorted (getCharsetSpecificities provided acs) provided specLess)
      as (out & Hout & Hch); [exact Hpl | now rewrite <- Hlen |].
    exists out. repeat split; [exact Hout | exact Hch | |].
    + now apply chosen_subset.
    + now apply chosen_NoDup.
  - unfold PreferredMediaTypes.
    destruct (parseAcceptMediaType_returns accept) as [acs ->]. obind_simpl. rewrite H0.
    destruct (getMediaTypeSpecificities_returns acs provided 0) as [ps Hps].
    unfold getMediaTypeSpecificities. rewrite Hps.
    destruct (getMediaTypeSpecificities_placed acs provided 0 ps Hps) as [Hpl Hlen].
    destruct (collect_sorted ps provided specLess) as (out & Hout & Hch);
      [exact Hpl | now rewrite Hlen |].
    exists out. repeat split; [exact Hout | exact Hch | |].
    + now apply chosen_subset.
    + now apply chosen_NoDup.
Qed.

(** *** Further facts *)

(** X1.  The entries of a parsed Accept-Charset header carry non-negative,
    strictly increasing orders, so on a parsed header getCharsetPriority
    returns the score of the last entry that matches the candidate, or the
    initial score when no entry does. *)
Theorem parsed_charset_priority (accept cs : string) (index : Z)
    (acs : list acceptCharset) :
  Z.of_nat (length (Split accept ",")) <= 2 ^ 63 ->
  parseAcceptCharset ParseFloat accept = Ok acs ->
  ascending (-1) (map charset_i acs)
  /\ getCharsetPriority cs acs index
     = default noPriority (last (omap (fun ac => charsetSpecify cs ac index) acs)).
Proof.
  intros Hlen H.
  assert (Hasc : ascending (-1) (map charset_i acs)).
  { apply (parseCharsets_ascending (Split accept ",") 0 (-1) acs H); lia. }
  split; [exact Hasc |]. unfold getCharsetPriority.
  apply (keepBest_last (fun ac => charsetSpecify cs ac index) charset_i);
    [| cbn; lia | exact Hasc].
  intros a s Hs. now apply charsetSpecify_order in Hs.
Qed.

(** X2.  PreferredMediaTypes returns a result for every header and every
    candidate list: no index of splitMediaTypes, splitParameters,
    parseMediaType or the selector's last loop is out of range. *)
Theorem PreferredMediaTypes_returns (accept : string) (provided : list string) :
  exists out, PreferredMediaTypes ParseFloat sort_Sort accept provided = Ok out.
Proof.
  unfold PreferredMediaTypes.
  destruct (parseAcceptMediaType_returns accept) as [acs ->]. obind_simpl.
  destruct (Z.of_nat (length provided) =? 0); [eauto |].
  destruct (getMediaTypeSpecificities_returns acs provided 0) as [ps Hps].
  unfold getMediaTypeSpecificities. rewrite Hps.
  destruct (getMediaTypeSpecificities_placed acs provided 0 ps Hps) as [Hpl Hlen].
  destruct (collect_sorted ps provided specLess) as (out & Hout & _);
    [exact Hpl | now rewrite Hlen |].
  eauto.
Qed.

End Facts.

(** ** The properties at concrete headers *)

Lemma priority_is_last_match_witness :
  ascending (-1) (map charset_i [mkAcceptCharset "utf-8" 1 0; mkAcceptCharset "*" 0.5 1])
  /\ getCharsetPriority "utf-8" [mkAcceptCharset "utf-8" 1 0; mkAcceptCharset "*" 0.5 1] 0
     = mkSpecificity 0 1 0.5 0
  /\ (exists specs,
        Forall2 (fun ac spec => mediaTypeSpecify ParseFloat64 "text/html" ac 1 = Ok spec)
                [mkAcceptMediaType "text" "html" ∅ 1 0; mkAcceptMediaType "text" "*" ∅ 0.5 1]
                specs
        /\ getMediaTypePriority ParseFloat64 "text/html"
             [mkAcceptMediaType "text" "html" ∅ 1 0; mkAcceptMediaType "text" "*" ∅ 0.5 1] 1
           = Ok (default noPriority (last (omap id specs)))).
Proof.
  destruct (priority_is_last_match ParseFloat64) as (Hc & _ & Hm).
  assert (Ha : ascending (-1) [0; 1]) by (cbn; lia).
  split; [exact Ha |]. split.
  - exact (Hc "utf-8" [mkAcceptCharset "utf-8" 1 0; mkAcceptCharset "*" 0.5 1] 0 Ha).
  - exact (Hm "text/html"
              [mkAcceptMediaType "text" "html" ∅ 1 0; mkAcceptMediaType "text" "*" ∅ 0.5 1]
              1 (Some (mkAcceptMediaType "text" "html" ∅ 1 1)) eq_refl Ha).
Defined.


Lemma parseMediaType_parameters_witness :
  parseMediaType ParseFloat64 "text/html;Level=1;q=0.5;charset=utf-8" 0
    = Ok (Some (mkAcceptMediaType "text" "html" (<["level" := "1"]> ∅) 0.5 0))
  /\ params (mkAcceptMediaType "text" "html" (<["level" := "1"]> ∅) 0.5 0) !! "level"
     = Some "1".
Proof.
  assert (H : parseMediaType ParseFloat64 "text/html;Level=1;q=0.5;charset=utf-8" 0
              = Ok (Some (mkAcceptMediaType "text" "html" (<["level" := "1"]> ∅) 0.5 0)))
    by (vm_compute; reflexivity).
  split; [exact H |].
  destruct (parseMediaType_parameters ParseFloat64 _ _ _ H)
    as (mt & st & ps & kvps & Hre & Hsp & Hrec & _).
  vm_compute in Hre. injection Hre as <- <- <-.
  vm_compute in Hsp. injection Hsp as <-.
  exact (Hrec [] ("Level", "1") [] eq_refl (List.Forall_nil _)).
Defined.

Lemma result_is_chosen_from_candidates_witness :
  exists out,
    PreferredMediaTypes ParseFloat64 insertionSort
      "text/html, application/*;q=0.2, image/jpeg;q=0.8"
      ["text/html"; "text/plain"; "application/json"] = Ok out
    /\ chosen ["text/html"; "text/plain"; "application/json"] out
    /\ Forall (fun x => In x ["text/html"; "text/plain"; "application/json"]) out
    /\ (NoDup ["text/html"; "text/plain"; "application/json"] -> NoDup out).
Proof.
  apply (proj2 (result_is_chosen_from_candidates ParseFloat64 insertionSort
                  insertionSort_Permutation
                  "text/html, application/*;q=0.2, image/jpeg;q=0.8"
                  ["text/html"; "text/plain"; "application/json"]
                  ltac:(discriminate))).
Defined.


Lemma parsed_charset_priority_witness :
  ascending (-1) (map charset_i [mkAcceptCharset "utf-8" 0.5 0; mkAcceptCharset "*" 1 2])
  /\ getCharsetPriority "utf-8" [mkAcceptCharset "utf-8" 0.5 0; mkAcceptCharset "*" 1 2] 0
     = mkSpecificity 0 2 1 0.
Proof.
  apply (parsed_charset_priority ParseFloat64 "utf-8;q=0.5, iso-8859-1;q=x, *" "utf-8" 0).
  - vm_compute. discriminate.
  - vm_compute. reflexivity.
Defined.

Lemma PreferredMediaTypes_returns_witness :
  exists out,
    PreferredMediaTypes ParseFloat64 insertionSort "text/html;q" ["text/html"] = Ok out.
Proof.
  apply (PreferredMediaTypes_returns ParseFloat64 insertionSort insertionSort_Permutation).
Defined.

(** * The selectors with candidates *)

Section Selection.

Variable ParseFloat : string -> option float.
Variable sort_Sort : forall A : Type, (A -> A -> bool) -> list A -> list A.
Variable compareSpecs : specificity -> specificity -> bool.

Hypothesis sort_Sort_Permutation :
  forall (A : Type) (less : A -> A -> bool) (l : list A),
    Permutation (sort_Sort A less l) l.

(** The candidates whose score has a quality above 0, in the candidates'
    own order. *)
Fixpoint accepted (provided : list string) (ps : list specificity) : list string :=
  match provided, ps with
  | x :: provided', p :: ps' =>
      if isSpecificityQuality p then x :: accepted provided' ps'
      else accepted provided' ps'
  | _, _ => []
  end.

(** The candidate a score points at. *)
Definition candidateAt (provided : list string) (v : specificity) : string :=
  default EmptyString (provided !! Z.to_nat (spec_i v)).

Lemma collect_candidateAt (provided : list string) (l : list specificity)
    (out : list string) :
  Forall2 (fun v x => provided !! Z.to_nat (spec_i v) = Some x) l out ->
  out = map (candidateAt provided) l.
Proof.
  induction 1 as [| v x l out Hv _ IH]; [reflexivity |].
  cbn. unfold candidateAt at 1. rewrite Hv. cbn. now rewrite IH.
Qed.

Lemma accepted_candidateAt (provided : list string) :
  forall (ps' : list specificity) (off : nat) (provided' : list string),
    placed off ps' -> length provided' = length ps' ->
    (forall k, provided' !! k = provided !! (off + k)%nat) ->
    accepted provided' ps'
    = map (candidateAt provided) (List.filter isSpecificityQuality ps').
Proof.
  induction ps' as [| p ps' IH]; intros off provided' Hpl Hlen Hsub.
  - now destruct provided'.
  - destruct provided' as [| x provided']; [discriminate Hlen |].
    cbn [accepted List.filter].
    assert (Htl : accepted provided' ps'
                  = map (candidateAt provided) (List.filter isSpecificityQuality ps')).
    { apply (IH (S off)).
      - intros k q Hk Hq. rewrite (Hpl (S k) q Hk Hq). f_equal. lia.
      - now injection Hlen.
      - intros k. replace (S off + k)%nat with (off + S k)%nat by lia.
        apply (Hsub (S k)). }
    destruct (isSpecificityQuality p) eqn:Hp; [| exact Htl].
    cbn [map]. rewrite Htl. f_equal.
    unfold candidateAt. rewrite (Hpl 0%nat p eq_refl Hp), Nat2Z.id.
    rewrite <- (Hsub 0%nat). reflexivity.
Qed.

Lemma collect_accepted (ps : list specificity) (provided : list string)
    (less : specificity -> specificity -> bool) :
  placed 0 ps -> length provided = length ps ->
  exists out,
    collect ps provided (sort_Sort _ less (List.filter isSpecificityQuality ps)) = Ok out
    /\ Permutation out (accepted provided ps).
Proof.
  intros Hpl Hlen.
  pose proof (sort_Sort_Permutation _ less (List.filter isSpecificityQuality ps)) as HP.
  destruct (collect_placed ps provided Hpl Hlen
              (sort_Sort _ less (List.filter isSpecificityQuality ps))) as (out & Hout & HF).
  { apply Forall_forall. intros v Hv. apply list_elem_of_In in Hv.
    apply (Permutation_in _ HP), filter_In in Hv. exact Hv. }
  exists out. split; [exact Hout |].
  rewrite (collect_candidateAt _ _ _ HF).
  rewrite (accepted_candidateAt provided ps 0 provided Hpl Hlen (fun k => eq_refl)).
  now apply Permutation_map.
Qed.

Lemma accepted_In (x : string) :
  forall (provided : list string) (ps : list specificity),
    In x (accepted provided ps)
    <-> exists k p, provided !! k = Some x /\ ps !! k = Some p
                    /\ isSpecificityQuality p = true.
Proof.
  induction provided as [| y provided IH]; intros ps.
  - cbn. split; [easy | intros (k & p & H & _); discriminate H].
  - destruct ps as [| q ps].
    + cbn. split; [easy | intros (k & p & _ & H & _); discriminate H].
    + cbn [accepted]. split.
      * destruct (isSpecificityQuality q) eqn:Hq.
        -- intros [<- | H].
           ++ exists 0%nat, q. auto.
           ++ apply IH in H as (k & p & ? & ? & ?). exists (S k), p. auto.
        -- intros H. apply IH in H as (k & p & ? & ? & ?). exists (S k), p. auto.
      * intros ([| k] & p & Hx & Hp & Hpq).
        -- cbn in Hx, Hp. injection Hx as ->. injection Hp as ->.
           rewrite Hpq. now left.
        -- cbn in Hx, Hp.
           assert (H : In x (accepted provided ps)) by (apply IH; eauto).
           destruct (isSpecificityQuality q); [now right | exact H].
Qed.

Lemma encodingSpecify_order (e : string) (ac : acceptEncoding) (index : Z)
    (s : specificity) :
  encodingSpecify e ac index = Some s -> spec_o s = encoding_i ac /\ spec_i s = index.
Proof.
  unfold encodingSpecify.
  repeat match goal with |- context [if ?b then _ else _] => destruct b end;
    try discriminate; now intros [= <-].
Qed.

Lemma getEncodingSpecificities_placed (acs : list acceptEncoding) :
  forall (types : list string) (off : nat),
    placed off (getEncodingSpecificities_from types acs (Z.of_nat off))
    /\ length (getEncodingSpecificities_from types acs (Z.of_nat off)) = length types.
Proof.
  induction types as [| v rest IH]; intros off.
  - split; [intros k p Hk; discriminate Hk | reflexivity].
  - cbn [getEncodingSpecificities_from].
    replace (Z.of_nat off + 1) with (Z.of_nat (S off)) by lia.
    destruct (IH (S off)) as [Hpl Hlen]. split; [| cbn; now rewrite Hlen].
    intros [| k] p Hk Hq.
    + cbn in Hk. injection Hk as <-. rewrite Nat.add_0_r.
      revert Hq. apply quality_index. unfold getEncodingPriority.
      apply (keepBest_index (fun ac => encodingSpecify v ac (Z.of_nat off))); [| now left].
      intros a s H. now apply encodingSpecify_order in H.
    + rewrite (Hpl k p Hk Hq). f_equal. lia.
Qed.

Lemma getLanguagePriority_index (language : string) (acs : list acceptLanguage)
    (index : Z) (p : specificity) :
  getLanguagePriority ParseFloat language acs index = Ok p ->
  p = noPriority \/ spec_i p = index.
Proof.
  unfold getLanguagePriority. intros Ep.
  destruct (parseLanguage ParseFloat language index) as [pl |] eqn:Epl.
  - rewrite (getLanguagePriority_fold _ _ _ _ Epl) in Ep. injection Ep as <-.
    apply (keepBest_index (fun ac => languageScore pl ac index)); [| now left].
    intros a s H. now apply languageScore_order in H.
  - destruct acs as [| ac acs']; [injection Ep as <-; now left |].
    cbn [getLanguagePriority_from] in Ep.
    rewrite languageSpecify_score, Epl in Ep. discriminate Ep.
Qed.

Lemma getLanguageSpecificities_placed (acs : list acceptLanguage) :
  forall (types : list string) (off : nat) (ps : list specificity),
    getLanguageSpecificities_from ParseFloat types acs (Z.of_nat off) = Ok ps ->
    placed off ps /\ length ps = length types.
Proof.
  induction types as [| v rest IH]; intros off ps.
  - intros [= <-]. split; [intros k p Hk; discriminate Hk | reflexivity].
  - cbn [getLanguageSpecificities_from].
    replace (Z.of_nat off + 1) with (Z.of_nat (S off)) by lia.
    destruct (getLanguagePriority ParseFloat v acs (Z.of_nat off)) as [p0 |] eqn:Ep;
      [| discriminate].
    destruct (getLanguageSpecificities_from ParseFloat rest acs (Z.of_nat (S off)))
      as [ps' |] eqn:Eps; [| discriminate].
    obind_simpl. intros [= <-].
    destruct (IH (S off) ps' Eps) as [Hpl Hlen]. split; [| cbn; now rewrite Hlen].
    intros [| k] p Hk Hq.
    + cbn in Hk. injection Hk as <-. rewrite Nat.add_0_r.
      revert Hq. apply quality_index. now apply getLanguagePriority_index with v acs.
    + rewrite (Hpl k p Hk Hq). f_equal. lia.
Qed.

Lemma provided_nonempty (provided : list string) :
  provided <> [] -> (Z.of_nat (length provided) =? 0) = false.
Proof. destruct provided; [contradiction | reflexivity]. Qed.

Lemma PreferredCharsets_accepted (accept : string) (provided : list string)
    (acs : list acceptCharset) :
  provided <> [] -> parseAcceptCharset ParseFloat accept = Ok acs ->
  exists out, PreferredCharsets ParseFloat sort_Sort accept provided = Ok out
    /\ Permutation out (accepted provided (getCharsetSpecificities provided acs)).
Proof.
  intros Hne Hacs. unfold PreferredCharsets. rewrite Hacs. obind_simpl.
  rewrite (provided_nonempty _ Hne).
  destruct (getCharsetSpecificities_placed acs provided 0) as [Hpl Hlen].
  apply collect_accepted; [exact Hpl | now rewrite <- Hlen].
Qed.

Lemma PreferredEncodings_accepted (accept : string) (provided : list string)
    (acs : list acceptEncoding) :
  provided <> [] -> parseAcceptEncoding ParseFloat accept = Ok acs ->
  exists out,
    PreferredEncodings ParseFloat sort_Sort compareSpecs accept provided = Ok out
    /\ Permutation out (accepted provided (getEncodingSpecificities provided acs)).
Proof.
  intros Hne Hacs. unfold PreferredEncodings. rewrite Hacs. obind_simpl.
  rewrite (provided_nonempty _ Hne).
  destruct (getEncodingSpecificities_placed acs provided 0) as [Hpl Hlen].
  apply collect_accepted; [exact Hpl | now rewrite <- Hlen].
Qed.

Lemma PreferredLanguages_accepted (accept : string) (provided : list string)
    (acs : list acceptLanguage) (ps : list specificity) :
  provided <> [] -> parseAcceptLanguage ParseFloat accept = Ok acs ->
  getLanguageSpecificities ParseFloat provided acs = Ok ps ->
  exists out,
    PreferredLanguages ParseFloat sort_Sort compareSpecs accept provided = Ok out
    /\ Permutation out (accepted provided ps).
Proof.
  intros Hne Hacs Hps. unfold PreferredLanguages. rewrite Hacs. obind_simpl.
  rewrite (provided_nonempty _ Hne), Hps.
  destruct (getLanguageSpecificities_placed acs provided 0 ps Hps) as [Hpl Hlen].
  apply collect_accepted; [exact Hpl | now rewrite Hlen].
Qed.

Lemma PreferredMediaTypes_accepted (accept : string) (provided : list string) :
  provided <> [] ->
  exists acs ps out,
    parseAcceptMediaType ParseFloat accept = Ok acs
    /\ getMediaTypeSpecificities ParseFloat provided acs = Ok ps
    /\ PreferredMediaTypes ParseFloat sort_Sort accept provided = Ok out
    /\ Permutation out (accepted provided ps).
Proof.
  intros Hne.
  destruct (parseAcceptMediaType_returns ParseFloat accept) as [acs Hacs].
  destruct (getMediaTypeSpecificities_returns ParseFloat acs provided 0) as [ps Hps].
  destruct (getMediaTypeSpecificities_placed ParseFloat acs provided 0 ps Hps)
    as [Hpl Hlen].
  destruct (collect_accepted ps provided specLess) as (out & Hout & HP);
    [exact Hpl | now rewrite Hlen |].
  exists acs, ps, out. repeat split; [exact Hacs | exact Hps | | exact HP].
  unfold PreferredMediaTypes. rewrite Hacs. obind_simpl.
  rewrite (provided_nonempty _ Hne).
  unfold getMediaTypeSpecificities. rewrite Hps. exact Hout.
Qed.

(** X3.  With at least one candidate, what a selector returns is, up to the
    order that sort.Sort gives it, the list of the candidates whose score has
    a quality above 0, each as often as it was supplied: no other candidate
    is returned and none of these is left out.  This holds for every
    comparator the scores are sorted with. *)
Theorem result_is_accepted_candidates (accept : string) (provided : list string) :
  provided <> [] ->
  (forall acs, parseAcceptCharset ParseFloat accept = Ok acs ->
     exists out, PreferredCharsets ParseFloat sort_Sort accept provided = Ok out
       /\ Permutation out (accepted provided (getCharsetSpecificities provided acs)))
  /\ (forall acs, parseAcceptEncoding ParseFloat accept = Ok acs ->
     exists out,
       PreferredEncodings ParseFloat sort_Sort compareSpecs accept provided = Ok out
       /\ Permutation out (accepted provided (getEncodingSpecificities provided acs)))
  /\ (forall acs ps, parseAcceptLanguage ParseFloat accept = Ok acs ->
     getLanguageSpecificities ParseFloat provided acs = Ok ps ->
     exists out,
       PreferredLanguages ParseFloat sort_Sort compareSpecs accept provided = Ok out
       /\ Permutation out (accepted provided ps))
  /\ (exists acs ps out,
       parseAcceptMediaType ParseFloat accept = Ok acs
       /\ getMediaTypeSpecificities ParseFloat provided acs = Ok ps
       /\ PreferredMediaTypes ParseFloat sort_Sort accept provided = Ok out
       /\ Permutation out (accepted provided ps)).
Proof.
  intros Hne. split; [| split; [| split]].
  - intros acs. now apply PreferredCharsets_accepted.
  - intros acs. now apply PreferredEncodings_accepted.
  - intros acs ps. now apply PreferredLanguages_accepted.
  - now apply PreferredMediaTypes_accepted.
Qed.

(** *** The last matching entry decides *)

(** The tests of charsetSpecify and encodingSpecify, as a condition on the
    entry. *)
Definition charsetMatches (cs : string) (ac : acceptCharset) : bool :=
  (String.eqb (ToLower (charset ac)) (ToLower cs) || String.eqb (charset ac) "*")%bool.

Definition encodingMatches (e : string) (ac : acceptEncoding) : bool :=
  (String.eqb (ToLower (encoding ac)) (ToLower e) || String.eqb (encoding ac) "*")%bool.

(** The quality of the last entry that matches, 0 when none does. *)
Definition lastQuality {A : Type} (matches : A -> bool) (q : A -> float)
    (acs : list A) : float :=
  match last (List.filter matches acs) with
  | Some ac => q ac
  | None => 0%float
  end.

Lemma last_score_quality {A : Type} (f : A -> option specificity) (m : A -> bool)
    (q : A -> float) :
  (forall a, m a = true -> exists s, f a = Some s /\ spec_q s = q a) ->
  (forall a, m a = false -> f a = None) ->
  forall acs,
    spec_q (default noPriority (last (omap f acs))) = lastQuality m q acs.
Proof.
  intros Hyes Hno acs. unfold lastQuality.
  assert (H : option_map spec_q (last (omap f acs))
              = option_map q (last (List.filter m acs))).
  { induction acs as [| a rest IH]; [reflexivity |].
    cbn [omap list_omap List.filter]. destruct (m a) eqn:Hm.
    - destruct (Hyes a Hm) as (s & -> & Hs). rewrite !last_cons.
      destruct (last (omap f rest)), (last (List.filter m rest));
        cbn in *; congruence.
    - rewrite (Hno a Hm). exact IH. }
  destruct (last (omap f acs)), (last (List.filter m acs)); cbn in *; congruence.
Qed.

Lemma getCharsetPriority_quality (cs : string) (acs : list acceptCharset) (index : Z) :
  ascending (-1) (map charset_i acs) ->
  isSpecificityQuality (getCharsetPriority cs acs index)
  = PrimFloat.ltb 0 (lastQuality (charsetMatches cs) charset_q acs).
Proof.
  intros Hasc. unfold isSpecificityQuality, getCharsetPriority.
  rewrite (keepBest_last (fun ac => charsetSpecify cs ac index) charset_i);
    [| intros a s H; now apply charsetSpecify_order in H | cbn; lia | exact Hasc].
  f_equal. apply last_score_quality.
  - intros a. unfold charsetMatches, charsetSpecify.
    destruct (String.eqb (ToLower (charset a)) (ToLower cs)); [eauto |].
    destruct (String.eqb (charset a) "*"); [eauto | discriminate].
  - intros a. unfold charsetMatches, charsetSpecify.
    destruct (String.eqb (ToLower (charset a)) (ToLower cs)); [discriminate |].
    now destruct (String.eqb (charset a) "*").
Qed.

Lemma getEncodingPriority_quality (e : string) (acs : list acceptEncoding) (index : Z) :
  ascending (-1) (map encoding_i acs) ->
  isSpecificityQuality (getEncodingPriority e acs index)
  = PrimFloat.ltb 0 (lastQuality (encodingMatches e) encoding_q acs).
Proof.
  intros Hasc. unfold isSpecificityQuality, getEncodingPriority.
  rewrite (keepBest_last (fun ac => encodingSpecify e ac index) encoding_i);
    [| intros a s H; now apply encodingSpecify_order in H | cbn; lia | exact Hasc].
  f_equal. apply last_score_quality.
  - intros a. unfold encodingMatches, encodingSpecify.
    destruct (String.eqb (ToLower (encoding a)) (ToLower e)); [eauto |].
    destruct (String.eqb (encoding a) "*"); [eauto | discriminate].
  - intros a. unfold encodingMatches, encodingSpecify.
    destruct (String.eqb (ToLower (encoding a)) (ToLower e)); [discriminate |].
    now destruct (String.eqb (encoding a) "*").
Qed.

Lemma accepted_charsets (acs : list acceptCharset) :
  ascending (-1) (map charset_i acs) ->
  forall (types : list string) (i : Z),
    accepted types (getCharsetSpecificities_from types acs i)
    = List.filter
        (fun cs => PrimFloat.ltb 0 (lastQuality (charsetMatches cs) charset_q acs)) types.
Proof.
  intros Hasc. induction types as [| v rest IH]; intros i; [reflexivity |].
  cbn [getCharsetSpecificities_from accepted List.filter].
  rewrite getCharsetPriority_quality by exact Hasc. now rewrite IH.
Qed.

Lemma accepted_encodings (acs : list acceptEncoding) :
  ascending (-1) (map encoding_i acs) ->
  forall (types : list string) (i : Z),
    accepted types (getEncodingSpecificities_from types acs i)
    = List.filter
        (fun e => PrimFloat.ltb 0 (lastQuality (encodingMatches e) encoding_q acs)) types.
Proof.
  intros Hasc. induction types as [| v rest IH]; intros i; [reflexivity |].
  cbn [getEncodingSpecificities_from accepted List.filter].
  rewrite getEncodingPriority_quality by exact Hasc. now rewrite IH.
Qed.

(** *** The orders of parsed entries *)

Lemma ascending_app (os : list Z) (x : Z) :
  forall lo, ascending lo os -> Forall (fun o => o < x) os -> lo < x < 2 ^ 63 ->
             ascending lo (os ++ [x]).
Proof.
  induction os as [| o rest IH]; intros lo Hasc Hall Hx.
  - cbn. split; [exact Hx | exact I].
  - cbn in Hasc. destruct Hasc as [Ho Hrest].
    apply Forall_cons in Hall as [Hox Hall].
    cbn. split; [exact Ho |]. apply IH; [exact Hrest | exact Hall | lia].
Qed.

Lemma parsedEncodings_ascending (accepts : list string) :
  forall (i lo : Z) (es : list acceptEncoding),
    parsedEncodings ParseFloat accepts i = Ok es ->
    lo < i -> i + Z.of_nat (length accepts) <= 2 ^ 63 ->
    ascending lo (map encoding_i es)
    /\ Forall (fun o => o < i + Z.of_nat (length accepts)) (map encoding_i es).
Proof.
  induction accepts as [| a rest IH]; intros i lo es; cbn [parsedEncodings].
  - intros [= <-]. cbn. split; [exact I | constructor].
  - intros H Hlo Hlen.
    assert (Hstep : forall es', parsedEncodings ParseFloat rest (i + 1) = Ok es' ->
              ascending i (map encoding_i es')
              /\ Forall (fun o => o < i + Z.of_nat (length (a :: rest)))
                        (map encoding_i es')).
    { intros es' E. destruct (IH (i + 1) i es' E) as [Ha Hb]; [lia | cbn in Hlen; lia |].
      split; [exact Ha |]. eapply Forall_impl; [exact Hb |]. cbn. intros; lia. }
    unfold parseEncoding in H.
    destruct (simpleEncodingRegExp (Trim a " ")) as [[e ps] |]; obind_simpl.
    + destruct (qualityOf ParseFloat ps) as [[q |] |]; try discriminate;
        destruct (parsedEncodings ParseFloat rest (i + 1)) as [es' |] eqn:E;
        try discriminate; injection H as <-; destruct (Hstep es' eq_refl) as [Ha Hb].
      * cbn. split; [split; [lia | exact Ha] |].
        constructor; [lia | exact Hb].
      * split; [| exact Hb]. apply ascending_weaken with i; [lia | exact Ha].
    + destruct (parsedEncodings ParseFloat rest (i + 1)) as [es' |] eqn:E;
        try discriminate; injection H as <-; destruct (Hstep es' eq_refl) as [Ha Hb].
      split; [| exact Hb]. apply ascending_weaken with i; [lia | exact Ha].
Qed.

Lemma parseAcceptEncoding_parsed (accept : string) :
  parseAcceptEncoding ParseFloat accept
  = (es ← parsedEncodings ParseFloat (Split accept ",") 0;
     Ok (if existsb matchesIdentity es then es
         else (es ++ [mkAcceptEncoding "identity" (minQualityOf es)
                        (Z.of_nat (length (Split accept ",")))])%list)).
Proof.
  unfold parseAcceptEncoding. rewrite parseEncodings_parsed. obind_simpl.
  destruct (parsedEncodings ParseFloat (Split accept ",") 0) as [es |]; [| reflexivity].
  cbn. now destruct (existsb matchesIdentity es).
Qed.

Lemma parseAcceptEncoding_ascending (accept : string) (acs : list acceptEncoding) :
  Z.of_nat (length (Split accept ",")) < 2 ^ 63 ->
  parseAcceptEncoding ParseFloat accept = Ok acs ->
  ascending (-1) (map encoding_i acs).
Proof.
  intros Hlen. rewrite parseAcceptEncoding_parsed.
  destruct (parsedEncodings ParseFloat (Split accept ",") 0) as [es |] eqn:E;
    [| discriminate].
  destruct (parsedEncodings_ascending _ 0 (-1) es E) as [Ha Hb]; [lia | lia |].
  obind_simpl. destruct (existsb matchesIdentity es); intros [= <-]; [exact Ha |].
  rewrite map_app. cbn [map encoding_i].
  apply ascending_app; [exact Ha | exact Hb | lia].
Qed.

Lemma PreferredCharsets_selected (accept : string) (provided : list string)
    (acs : list acceptCharset) :
  provided <> [] -> parseAcceptCharset ParseFloat accept = Ok acs ->
  ascending (-1) (map charset_i acs) ->
  exists out, PreferredCharsets ParseFloat sort_Sort accept provided = Ok out
    /\ Permutation out
         (List.filter
            (fun cs => PrimFloat.ltb 0 (lastQuality (charsetMatches cs) charset_q acs))
            provided).
Proof.
  intros Hne Hacs Hasc.
  destruct (PreferredCharsets_accepted accept provided acs Hne Hacs) as (out & Hout & HP).
  exists out. split; [exact Hout |].
  unfold getCharsetSpecificities in HP. now rewrite accepted_charsets in HP.
Qed.

Lemma PreferredEncodings_selected (accept : string) (provided : list string)
    (acs : list acceptEncoding) :
  provided <> [] -> parseAcceptEncoding ParseFloat accept = Ok acs ->
  ascending (-1) (map encoding_i acs) ->
  exists out,
    PreferredEncodings ParseFloat sort_Sort compareSpecs accept provided = Ok out
    /\ Permutation out
         (List.filter
            (fun e => PrimFloat.ltb 0 (lastQuality (encodingMatches e) encoding_q acs))
            provided).
Proof.
  intros Hne Hacs Hasc.
  destruct (PreferredEncodings_accepted accept provided acs Hne Hacs) as (out & Hout & HP).
  exists out. split; [exact Hout |].
  unfold getEncodingSpecificities in HP. now rewrite accepted_encodings in HP.
Qed.


(** X5.  Every parsed Accept-Encoding list holds an entry that matches
    identity (one of the header's, or the one parseAcceptEncoding adds), and
    its orders are non-negative and strictly increasing, the added entry
    coming last; so getEncodingPriority returns the score of the last entry
    that matches the candidate. *)
Theorem parsed_encodings_invariant (accept : string) (acs : list acceptEncoding) :
  Z.of_nat (length (Split accept ",")) < 2 ^ 63 ->
  parseAcceptEncoding ParseFloat accept = Ok acs ->
  existsb matchesIdentity acs = true
  /\ ascending (-1) (map encoding_i acs)
  /\ (forall e index,
         getEncodingPriority e acs index
         = default noPriority (last (omap (fun ac => encodingSpecify e ac index) acs))).
Proof.
  intros Hlen Hacs.
  pose proof (parseAcceptEncoding_ascending accept acs Hlen Hacs) as Hasc.
  split; [| split; [exact Hasc |]].
  - rewrite parseAcceptEncoding_parsed in Hacs.
    destruct (parsedEncodings ParseFloat (Split accept ",") 0) as [es |]; [| discriminate].
    obind_simpl. destruct (existsb matchesIdentity es) eqn:E; injection Hacs as <-.
    + exact E.
    + rewrite existsb_app. cbn. now rewrite orb_true_r.
  - intros e index. unfold getEncodingPriority.
    apply (keepBest_last (fun ac => encodingSpecify e ac index) encoding_i);
      [| cbn; lia | exact Hasc].
    intros a s H. now apply encodingSpecify_order in H.
Qed.

(** *** Splitting outside quotes *)

(** [strings.Join(elems, sep)]. *)
Fixpoint Join (elems : list string) (sep : string) : string :=
  match elems with
  | [] => EmptyString
  | x :: rest =>
      match rest with
      | [] => x
      | _ :: _ => x +:+ sep +:+ Join rest sep
      end
  end.

Lemma append_assoc3 (a b c : string) : (a +:+ b) +:+ c = a +:+ (b +:+ c).
Proof.
  induction a as [| x a IH]; [reflexivity |].
  change (String x a +:+ b) with (String x (a +:+ b)).
  change (String x (a +:+ b) +:+ c) with (String x ((a +:+ b) +:+ c)).
  change (String x a +:+ (b +:+ c)) with (String x (a +:+ (b +:+ c))).
  now rewrite IH.
Qed.

Lemma Join_cons (x : string) (l : list string) (sep : string) :
  l <> [] -> Join (x :: l) sep = x +:+ sep +:+ Join l sep.
Proof. destruct l; [contradiction | reflexivity]. Qed.

Lemma Join_Split (s : string) (c : ascii) : Join (Split s c) (String c "") = s.
Proof.
  induction s as [| a s IH]; [reflexivity |].
  cbn [Split]. pose proof (Split_length s c) as Hlen.
  destruct (Split s c) as [| h t]; [cbn in Hlen; lia |].
  destruct (Ascii.eqb a c) eqn:E.
  - apply Ascii.eqb_eq in E. subst a. rewrite <- IH. reflexivity.
  - rewrite <- IH. now destruct t.
Qed.

Lemma Join_merge (sep a b : string) (r : list string) :
  forall l, Join (l ++ (a +:+ sep +:+ b) :: r) sep = Join (l ++ a :: b :: r) sep.
Proof.
  induction l as [| x l IH].
  - cbn [app]. destruct r as [| y r]; [reflexivity |].
    rewrite (Join_cons a) by discriminate.
    rewrite (Join_cons b) by discriminate.
    rewrite (Join_cons (a +:+ sep +:+ b)) by discriminate.
    rewrite <- !append_assoc3. reflexivity.
  - cbn [app]. rewrite !Join_cons by (now destruct l). now rewrite IH.
Qed.

(** An even number of double quotes. *)
Definition evenQuotes (s : string) : Prop := quoteCount s mod 2 = 0.

Lemma joinQuoted_joined (sep : string) :
  forall (n : nat) (arr : list string) (i j : nat) (arr' : list string) (j' : nat),
    (j < i)%nat -> (i + n = length arr)%nat ->
    joinQuoted sep n arr i j = Ok (arr', j') ->
    length arr' = length arr /\ (j' < length arr')%nat
    /\ Join (take (S j') arr') sep = Join (take (S j) arr ++ drop i arr) sep
    /\ (Forall evenQuotes (take j arr) -> Forall evenQuotes (take j' arr')).
Proof.
  induction n as [| n IH]; intros arr i j arr' j' Hji Hlen.
  - cbn [joinQuoted]. intros [= <- <-].
    rewrite (drop_ge arr i) by lia. rewrite app_nil_r.
    repeat split; [lia | auto].
  - cbn [joinQuoted].
    destruct (lookup_lt_is_Some_2 arr j) as [aj Haj]; [lia |].
    destruct (lookup_lt_is_Some_2 arr i) as [ai Hai]; [lia |].
    rewrite Haj, Hai. rewrite (drop_S arr ai i Hai).
    destruct (quoteCount aj mod 2 =? 0) eqn:Heven.
    + rewrite bool_decide_true by lia. intros H.
      apply IH in H; [| lia | rewrite length_insert; lia].
      destruct H as (Hl & Hj' & HJ & HE). rewrite length_insert in Hl.
      repeat split; [exact Hl | exact Hj' | |].
      * rewrite HJ. f_equal.
        rewrite (take_S_r (<[S j:=ai]> arr) (S j) ai)
          by (apply list_lookup_insert_eq; lia).
        rewrite take_insert_ge by lia. rewrite drop_insert_lt by lia.
        rewrite <- app_assoc. reflexivity.
      * intros Hev. apply HE. rewrite take_insert_ge by lia.
        rewrite (take_S_r arr j aj Haj). apply Forall_app. split; [exact Hev |].
        constructor; [| constructor]. apply Z.eqb_eq. exact Heven.
    + intros H. apply IH in H; [| lia | rewrite length_insert; lia].
      destruct H as (Hl & Hj' & HJ & HE). rewrite length_insert in Hl.
      repeat split; [exact Hl | exact Hj' | |].
      * rewrite HJ.
        rewrite (take_S_r (<[j:=aj +:+ sep +:+ ai]> arr) j (aj +:+ sep +:+ ai))
          by (apply list_lookup_insert_eq; lia).
        rewrite take_insert_ge by lia. rewrite drop_insert_lt by lia.
        rewrite (take_S_r arr j aj Haj). rewrite <- !app_assoc. cbn [app].
        apply Join_merge.
      * intros Hev. apply HE. now rewrite take_insert_ge by lia.
Qed.

Lemma joinQuoted_pieces (c : ascii) (s : string) :
  exists (arr : list string) (j : nat) (lst : string),
    joinQuoted (String c "") (length (Split s c) - 1) (Split s c) 1 0 = Ok (arr, j)
    /\ upTo arr j = Ok (take j arr ++ [lst])%list
    /\ Join (take j arr ++ [lst])%list (String c "") = s
    /\ Forall evenQuotes (take j arr)
    /\ (length (take j arr ++ [lst])%list <= length (Split s c))%nat.
Proof.
  pose proof (Split_length s c) as H1.
  destruct (joinQuoted_returns (String c "") (length (Split s c) - 1) (Split s c) 1 0)
    as (arr & j & Hjq & _); [lia | lia |].
  destruct (joinQuoted_joined (String c "") (length (Split s c) - 1) (Split s c) 1 0 arr j)
    as (Hl & Hj & HJ & HE); [lia | lia | exact Hjq |].
  destruct (lookup_lt_is_Some_2 arr j Hj) as [lst Hlst].
  exists arr, j, lst. rewrite <- (take_S_r arr j lst Hlst).
  repeat split; [exact Hjq | | | |].
  - unfold upTo. now rewrite bool_decide_true by lia.
  - rewrite HJ, take_drop. apply Join_Split.
  - apply HE. constructor.
  - rewrite length_take. lia.
Qed.

(** X6.  splitMediaTypes and splitParameters split at the commas and
    semicolons that stand outside double quotes: every piece but the last
    holds an even number of quotes, and the pieces joined with the separator
    give back the string that was split (splitParameters then trims the
    spaces around each piece).  Both return at least one piece. *)
Theorem quoted_separators_do_not_split (s : string) :
  (exists init lst,
      splitMediaTypes s = Ok (init ++ [lst])%list
      /\ Join (init ++ [lst])%list "," = s
      /\ Forall evenQuotes init)
  /\ (exists init lst,
      splitParameters s = Ok (map (fun p => Trim p " ") (init ++ [lst])%list)
      /\ Join (init ++ [lst])%list ";" = s
      /\ Forall evenQuotes init).
Proof.
  split.
  - destruct (joinQuoted_pieces "," s) as (arr & j & lst & Hjq & Hup & HJ & HE & _).
    exists (take j arr), lst. repeat split; [| exact HJ | exact HE].
    unfold splitMediaTypes. rewrite Hjq. obind_simpl. exact Hup.
  - destruct (joinQuoted_pieces ";" s) as (arr & j & lst & Hjq & Hup & HJ & HE & _).
    exists (take j arr), lst. repeat split; [| exact HJ | exact HE].
    unfold splitParameters. rewrite Hjq. obind_simpl. now rewrite Hup.
Qed.

(** *** The orders of parsed languages and media types *)

Lemma parseLanguage_order (s : string) (i : Z) (e : acceptLanguage) :
  parseLanguage ParseFloat s i = Ok (Some e) -> language_i e = i.
Proof.
  unfold parseLanguage.
  destruct (simpleLanguageRegExp s) as [[[pre suf] ps] |]; [| discriminate].
  obind_simpl. destruct (qualityOf ParseFloat ps) as [[q |] |]; try discriminate.
  now intros [= <-].
Qed.

Lemma parseMediaType_order (s : string) (i : Z) (e : acceptMediaType) :
  parseMediaType ParseFloat s i = Ok (Some e) -> mediaType_i e = i.
Proof.
  unfold parseMediaType.
  destruct (simpleMediaTypeRegExp s) as [[[mt st] ps] |]; [| discriminate].
  destruct (negb (String.eqb ps "")); [| now intros [= <-]].
  obind_simpl. destruct (splitParameters ps) as [kvps |]; [| discriminate].
  destruct (mediaParams ParseFloat (map splitKeyValuePair kvps) ∅ 1)
    as [[[m q] |] |]; try discriminate.
  now intros [= <-].
Qed.

Lemma parseLanguages_ascending (accepts : list string) :
  forall (i lo : Z) (acs : list acceptLanguage),
    parseLanguages ParseFloat accepts i = Ok acs ->
    lo < i -> i + Z.of_nat (length accepts) <= 2 ^ 63 ->
    ascending lo (map language_i acs).
Proof.
  induction accepts as [| a rest IH]; intros i lo acs; cbn [parseLanguages].
  - intros [= <-]. easy.
  - unfold mbind, outcome_bind, obind.
    destruct (parseLanguage ParseFloat (Trim a " ") i) as [x |] eqn:E1; [| discriminate].
    destruct (parseLanguages ParseFloat rest (i + 1)) as [acs' |] eqn:E2; [| discriminate].
    intros [= <-] Hlo Hlen. cbn [length] in Hlen.
    destruct x as [x |].
    + cbn. rewrite (parseLanguage_order _ _ _ E1). split; [lia |].
      apply (IH (i + 1)); [exact E2 | lia | lia].
    + apply (IH (i + 1)); [exact E2 | lia | lia].
Qed.

Lemma parseMediaTypes_ascending (accepts : list string) :
  forall (i lo : Z) (acs : list acceptMediaType),
    parseMediaTypes ParseFloat accepts i = Ok acs ->
    lo < i -> i + Z.of_nat (length accepts) <= 2 ^ 63 ->
    ascending lo (map mediaType_i acs).
Proof.
  induction accepts as [| a rest IH]; intros i lo acs; cbn [parseMediaTypes].
  - intros [= <-]. easy.
  - unfold mbind, outcome_bind, obind.
    destruct (parseMediaType ParseFloat (Trim a " ") i) as [x |] eqn:E1; [| discriminate].
    destruct (parseMediaTypes ParseFloat rest (i + 1)) as [acs' |] eqn:E2; [| discriminate].
    intros [= <-] Hlo Hlen. cbn [length] in Hlen.
    destruct x as [x |].
    + cbn. rewrite (parseMediaType_order _ _ _ E1). split; [lia |].
      apply (IH (i + 1)); [exact E2 | lia | lia].
    + apply (IH (i + 1)); [exact E2 | lia | lia].
Qed.

(** X7.  The entries of a parsed Accept-Language or Accept header carry
    non-negative, strictly increasing orders (the position of each entry's
    segment), whichever segments were dropped; these are the lists on which
    the priority loops return the last matching entry. *)
Theorem parsed_orders_ascend (accept : string) :
  Z.of_nat (length (Split accept ",")) <= 2 ^ 63 ->
  (forall acs, parseAcceptLanguage ParseFloat accept = Ok acs ->
               ascending (-1) (map language_i acs))
  /\ (forall acs, parseAcceptMediaType ParseFloat accept = Ok acs ->
                  ascending (-1) (map mediaType_i acs)).
Proof.
  intros Hlen. split.
  - intros acs H. apply (parseLanguages_ascending (Split accept ",") 0 (-1) acs H); lia.
  - intros acs. unfold parseAcceptMediaType, splitMediaTypes.
    destruct (joinQuoted_pieces "," accept) as (arr & j & lst & Hjq & Hup & _ & _ & Hl).
    rewrite Hjq. obind_simpl. rewrite Hup. intros H.
    apply (parseMediaTypes_ascending _ 0 (-1) acs H); lia.
Qed.

(** *** Key and value of a parameter *)

Lemma substring_all (s : string) : substring 0 (String.length s) s = s.
Proof. induction s as [| a s IH]; [reflexivity |]. cbn. now rewrite IH. Qed.

Lemma Index_split (c : ascii) :
  forall s : string,
    Index s c = -1
    \/ (0 <= Index s c < len s
        /\ s = substring 0 (Z.to_nat (Index s c)) s
               +:+ String c (substring (Z.to_nat (Index s c + 1))
                               (String.length s - Z.to_nat (Index s c + 1)) s)
        /\ Index (substring 0 (Z.to_nat (Index s c)) s) c = -1).
Proof.
  induction s as [| a s IH]; [now left |].
  cbn [Index]. destruct (Ascii.eqb a c) eqn:E.
  - right. apply Ascii.eqb_eq in E. subst a. unfold len. cbn [String.length].
    split; [lia |]. split; [| reflexivity].
    change (Z.to_nat 0) with 0%nat. change (Z.to_nat (0 + 1)) with 1%nat.
    replace (S (String.length s) - 1)%nat with (String.length s) by lia.
    cbn [substring]. rewrite substring_all. reflexivity.
  - destruct IH as [IH | (Hr & Hs & Hp)].
    + left. now rewrite IH.
    + right. unfold len in *. cbn [String.length].
      destruct (Index s c <? 0) eqn:Hneg; [apply Z.ltb_lt in Hneg; lia |].
      split; [lia |].
      replace (Z.to_nat (Index s c + 1)) with (S (Z.to_nat (Index s c))) in * by lia.
      replace (Z.to_nat (Index s c + 1 + 1)) with (S (S (Z.to_nat (Index s c)))) by lia.
      cbn [substring]. split.
      * change (String a ?x +:+ ?y) with (String a (x +:+ y)).
        f_equal. exact Hs.
      * cbn [Index]. rewrite E, Hp. reflexivity.
Qed.

(** X8.  splitKeyValuePair cuts a parameter at its first [=]: the key holds
    no [=], and key, [=] and value put together give back the parameter; a
    parameter without [=] is all key, with an empty value. *)
Theorem splitKeyValuePair_joined (s : string) :
  Index (splitKeyValuePair s).1 "=" = -1
  /\ (if Index s "=" =? -1
      then splitKeyValuePair s = (s, EmptyString)
      else s = (splitKeyValuePair s).1 +:+ "=" +:+ (splitKeyValuePair s).2).
Proof.
  unfold splitKeyValuePair.
  destruct (Index_split "=" s) as [H | (Hr & Hs & Hp)].
  - rewrite H. cbn. split; [exact H | reflexivity].
  - destruct (Index s "=" =? -1) eqn:E; [apply Z.eqb_eq in E; lia |].
    cbn [fst snd]. split; [exact Hp | exact Hs].
Qed.

(** * negotiator.go *)

(** [textproto.CanonicalMIMEHeaderKey], which the package imports. *)
Variable CanonicalMIMEHeaderKey : string -> string.

(** [http.Header] is [map[string][]string]: the map may be nil ([None]), and
    so may the slice stored under a key; a key that is absent reads as the
    nil slice. *)
Definition http_Header : Type := option (gmap string (option (list string))).

Definition HeaderAcceptCharset : string := CanonicalMIMEHeaderKey "Accept-Charset".
Definition HeaderAcceptEncoding : string := CanonicalMIMEHeaderKey "Accept-Encoding".
Definition HeaderAcceptLanguage : string := CanonicalMIMEHeaderKey "Accept-Language".
Definition HeaderAccept : string := CanonicalMIMEHeaderKey "Accept".

Record Negotiator : Type := mkNegotiator { Header : http_Header }.

Definition New (header : http_Header) : Negotiator := mkNegotiator header.

Definition getHeaderValues (h : http_Header) (key : string) : option (list string) :=
  match h with
  | None => None
  | Some m => default None (m !! CanonicalMIMEHeaderKey key)
  end.

Definition getAccept (h : http_Header) (key defaultValue : string) : string :=
  match getHeaderValues h key with
  | Some values => Join values ","
  | None => defaultValue
  end.


Definition Charsets (n : Negotiator) (available : list string) : outcome (list string) :=
  PreferredCharsets ParseFloat sort_Sort
    (getAccept (Header n) HeaderAcceptCharset "*") available.


Definition Encodings (n : Negotiator) (available : list string) : outcome (list string) :=
  PreferredEncodings ParseFloat sort_Sort compareSpecs
    (getAccept (Header n) HeaderAcceptEncoding "*") available.


Definition Languages (n : Negotiator) (available : list string) : outcome (list string) :=
  PreferredLanguages ParseFloat sort_Sort compareSpecs
    (getAccept (Header n) HeaderAcceptLanguage "*") available.


Definition MediaTypes (n : Negotiator) (available : list string) : outcome (list string) :=
  PreferredMediaTypes ParseFloat sort_Sort
    (getAccept (Header n) HeaderAccept "*/*") available.


(** *** Several header lines *)

Lemma Split_append (c : ascii) (y : string) :
  forall x : string,
    Split (x +:+ String c y) c = (Split x c ++ Split y c)%list.
Proof.
  induction x as [| a x IH].
  - change (EmptyString +:+ String c y) with (String c y).
    cbn [Split]. now rewrite Ascii.eqb_refl.
  - change (String a x +:+ String c y) with (String a (x +:+ String c y)).
    cbn [Split]. rewrite IH. pose proof (Split_length x c) as Hlen.
    destruct (Ascii.eqb a c); [reflexivity |].
    destruct (Split x c) as [| h t]; [cbn in Hlen; lia | reflexivity].
Qed.

Lemma Split_Join (c : ascii) :
  forall values : list string,
    values <> [] ->
    Split (Join values (String c "")) c = flat_map (fun v => Split v c) values.
Proof.
  induction values as [| v rest IH]; [contradiction |]. intros _.
  destruct rest as [| w rest].
  - cbn. now rewrite app_nil_r.
  - rewrite Join_cons by discriminate.
    change (v +:+ String c "" +:+ Join (w :: rest) (String c ""))
      with (v +:+ String c (Join (w :: rest) (String c ""))).
    rewrite Split_append, IH by discriminate. reflexivity.
Qed.

(** X9.  The header value a selector parses: the default when the header
    is nil or holds no slice under the canonical key, the empty string (not
    the default) when the slice is empty, and otherwise the header's lines
    joined with commas, whose segments are the segments of the first line,
    then of the second, and so on. *)
Theorem header_lines_are_joined (h : http_Header) (key defaultValue : string) :
  (getHeaderValues h key = None -> getAccept h key defaultValue = defaultValue)
  /\ (getHeaderValues h key = Some [] -> getAccept h key defaultValue = EmptyString)
  /\ (forall values, getHeaderValues h key = Some values -> values <> [] ->
        Split (getAccept h key defaultValue) ","
        = flat_map (fun v => Split v ",") values)
  /\ getHeaderValues None key = getHeaderValues (Some ∅) key.
Proof.
  unfold getAccept. repeat split.
  - now intros ->.
  - now intros ->.
  - intros values -> Hne. now apply Split_Join.
Qed.

(** *** No header *)

Lemma sorted_singleton {A : Type} (less : A -> A -> bool) (x : A) :
  sort_Sort A less [x] = [x].
Proof.
  apply Permutation_length_1_inv, Permutation_sym, sort_Sort_Permutation.
Qed.

Lemma filter_all {A : Type} (f : A -> bool) (l : list A) :
  (forall x, f x = true) -> List.filter f l = l.
Proof.
  intros H. induction l as [| x l IH]; [reflexivity |].
  cbn. now rewrite H, IH.
Qed.

(** X10.  A request without the header is treated as one that accepts
    everything: with no candidate the selectors return the wildcard, [*] or
    [*/*], and Charsets and Encodings return every candidate they are given,
    each as often as it was supplied. *)
Theorem absent_header_accepts_everything (n : Negotiator) (available : list string) :
  (getHeaderValues (Header n) HeaderAcceptCharset = None ->
     Charsets n [] = Ok ["*"]
     /\ (available <> [] ->
         exists out, Charsets n available = Ok out /\ Permutation out available))
  /\ (getHeaderValues (Header n) HeaderAcceptEncoding = None ->
     Encodings n [] = Ok ["*"]
     /\ (available <> [] ->
         exists out, Encodings n available = Ok out /\ Permutation out available))
  /\ (getHeaderValues (Header n) HeaderAcceptLanguage = None ->
     Languages n [] = Ok ["*"])
  /\ (getHeaderValues (Header n) HeaderAccept = None ->
     MediaTypes n [] = Ok ["*/*"]).
Proof.
  split; [| split; [| split]].
  - intros Hnone. unfold Charsets, getAccept. rewrite Hnone. split.
    + unfold PreferredCharsets.
      change (parseAcceptCharset ParseFloat "*") with (Ok [mkAcceptCharset "*" 1 0]).
      obind_simpl. now rewrite sorted_singleton.
    + intros Hne.
      destruct (PreferredCharsets_selected "*" available [mkAcceptCharset "*" 1 0] Hne)
        as (out & Hout & HP); [reflexivity | cbn; lia |].
      exists out. split; [exact Hout |].
      rewrite filter_all in HP; [exact HP |].
      intros cs. unfold lastQuality, charsetMatches. cbn [charset List.filter].
      now rewrite orb_true_r.
  - intros Hnone. unfold Encodings, getAccept. rewrite Hnone. split.
    + unfold PreferredEncodings.
      change (parseAcceptEncoding ParseFloat "*") with (Ok [mkAcceptEncoding "*" 1 0]).
      obind_simpl. now rewrite sorted_singleton.
    + intros Hne.
      destruct (PreferredEncodings_selected "*" available [mkAcceptEncoding "*" 1 0] Hne)
        as (out & Hout & HP); [reflexivity | cbn; lia |].
      exists out. split; [exact Hout |].
      rewrite filter_all in HP; [exact HP |].
      intros e. unfold lastQuality, encodingMatches. cbn [encoding List.filter].
      now rewrite orb_true_r.
  - intros Hnone. unfold Languages, getAccept. rewrite Hnone.
    unfold PreferredLanguages.
    change (parseAcceptLanguage ParseFloat "*")
      with (Ok [mkAcceptLanguage "*" "" "*" 1 0]).
    obind_simpl. now rewrite sorted_singleton.
  - intros Hnone. unfold MediaTypes, getAccept. rewrite Hnone.
    unfold PreferredMediaTypes.
    change (parseAcceptMediaType ParseFloat "*/*")
      with (Ok [mkAcceptMediaType "*" "*" ∅ 1 0]).
    obind_simpl. now rewrite sorted_singleton.
Qed.

(** *** The most preferred candidate *)




(** * The order of the result without candidates *)

(** ** Comparing qualities above zero *)

Lemma SFcompare_positive_total (f g : spec_float) :
  positiveSF f -> positiveSF g ->
  SFcompare f g = Some Lt \/ SFcompare f g = Some Eq \/ SFcompare f g = Some Gt.
Proof.
  destruct f as [s | s | | s m e], g as [s' | s' | | s' m' e']; simpl;
    try contradiction; destruct s; try contradiction; destruct s'; try contradiction;
    intros _ _; auto.
  destruct (e ?= e'); auto. destruct (Pos.compare_cont Eq m m'); auto.
Qed.

Lemma SFcompare_positive_opp (f g : spec_float) :
  positiveSF f -> positiveSF g ->
  SFcompare g f = option_map CompOpp (SFcompare f g).
Proof.
  destruct f as [s | s | | s m e], g as [s' | s' | | s' m' e']; simpl;
    try contradiction; destruct s; try contradiction; destruct s'; try contradiction;
    intros _ _; auto.
  rewrite (Z.compare_antisym e e'). destruct (e ?= e'); simpl; auto.
  change (Pos.compare_cont Eq m' m) with (Pos.compare m' m).
  change (Pos.compare_cont Eq m m') with (Pos.compare m m').
  now rewrite (Pos.compare_antisym m m').
Qed.

Lemma SFcompare_positive_trans (f g h : spec_float) (c1 c2 : comparison) :
  positiveSF f -> positiveSF g -> positiveSF h ->
  SFcompare f g = Some c1 -> SFcompare g h = Some c2 -> c1 <> Lt -> c2 <> Lt ->
  SFcompare f h = Some (match c1, c2 with Eq, Eq => Eq | _, _ => Gt end).
Proof.
  destruct f as [s | s | | s m e], g as [s' | s' | | s' m' e'],
           h as [s'' | s'' | | s'' m'' e'']; simpl;
    try contradiction; destruct s; try contradiction; destruct s'; try contradiction;
    destruct s''; try contradiction; intros _ _ _;
    try (intros [= <-] [= <-] H1 H2; try reflexivity; congruence).
  change (Pos.compare_cont Eq m m') with (Pos.compare m m').
  change (Pos.compare_cont Eq m' m'') with (Pos.compare m' m'').
  change (Pos.compare_cont Eq m m'') with (Pos.compare m m'').
  intros [= <-] [= <-] H1 H2. f_equal.
  destruct (Z.compare_spec e e'); try congruence;
    destruct (Z.compare_spec e' e''); try congruence;
    destruct (Z.compare_spec e e''); try lia; try reflexivity;
    destruct (Pos.compare_spec m m'); try congruence;
    destruct (Pos.compare_spec m' m''); try congruence;
    destruct (Pos.compare_spec m m''); try lia; reflexivity.
Qed.

(** The three-way comparison of two qualities. *)
Definition compare64 (a b : float) : option comparison :=
  SFcompare (Prim2SF a) (Prim2SF b).

Lemma eqb_compare64 (a b : float) :
  PrimFloat.eqb a b = match compare64 a b with Some Eq => true | _ => false end.
Proof. now rewrite FloatAxioms.eqb_spec. Qed.

Lemma ltb_compare64 (a b : float) :
  PrimFloat.ltb a b = match compare64 a b with Some Lt => true | _ => false end.
Proof. now rewrite FloatAxioms.ltb_spec. Qed.

(** ** The two-step comparator of language.go and encoding.go *)

Section TwoStep.

Context {A : Type} (q : A -> float) (i : A -> Z).

(** [if ac1.q != ac2.q { return ac1.q > ac2.q }; return ac1.i < ac2.i]. *)
Definition twoStepLess (a b : A) : bool :=
  if negb (PrimFloat.eqb (q a) (q b)) then PrimFloat.ltb (q b) (q a) else i a <? i b.

(** Higher quality first, and the earlier entry first among equal qualities. *)
Definition ranksBefore (a b : A) : Prop :=
  PrimFloat.ltb (q b) (q a) = true
  \/ (PrimFloat.eqb (q a) (q b) = true /\ i a < i b).

Lemma twoStepLess_compare (a b : A) :
  positive64 (q a) -> positive64 (q b) ->
  twoStepLess a b
  = match compare64 (q a) (q b) with
    | Some Gt => true
    | Some Eq => i a <? i b
    | _ => false
    end.
Proof.
  intros Ha Hb. unfold twoStepLess. rewrite eqb_compare64, ltb_compare64.
  unfold compare64. rewrite (SFcompare_positive_opp _ _ Ha Hb).
  destruct (SFcompare_positive_total _ _ Ha Hb) as [-> | [-> | ->]]; reflexivity.
Qed.

Lemma twoStepLess_ranksBefore (a b : A) :
  positive64 (q a) -> positive64 (q b) ->
  twoStepLess a b = true <-> ranksBefore a b.
Proof.
  intros Ha Hb. rewrite (twoStepLess_compare a b Ha Hb). unfold ranksBefore.
  rewrite eqb_compare64, ltb_compare64. unfold compare64.
  rewrite (SFcompare_positive_opp _ _ Ha Hb).
  destruct (SFcompare_positive_total _ _ Ha Hb) as [-> | [-> | ->]]; cbn.
  - split; [discriminate | intros [? | [? _]]; discriminate].
  - rewrite Z.ltb_lt. split; [now right | intros [? | [_ ?]]; [discriminate | easy]].
  - split; [now left | reflexivity].
Qed.

End TwoStep.

(** ** What sort.Sort promises *)

(** [less] is a strict total order on the elements of [l]. *)
Definition strictOrderOn {A : Type} (less : A -> A -> bool) (l : list A) : Prop :=
  (forall x, In x l -> less x x = false)
  /\ (forall x y z, In x l -> In y l -> In z l ->
        less x y = true -> less y z = true -> less x z = true)
  /\ (forall x y, In x l -> In y l -> x = y \/ less x y = true \/ less y x = true).

(** Every element stands in relation [R] to all the elements after it. *)
Fixpoint sortedBy {A : Type} (R : A -> A -> Prop) (l : list A) : Prop :=
  match l with
  | [] => True
  | x :: rest => Forall (R x) rest /\ sortedBy R rest
  end.

(** The contract of [sort.Sort] for a [Less] that is an ordering: no element
    of the result is less than one before it. *)
Hypothesis sort_Sort_sorted :
  forall (A : Type) (less : A -> A -> bool) (l : list A),
    strictOrderOn less l ->
    sortedBy (fun x y => less y x = false) (sort_Sort A less l).

Lemma twoStepLess_strictOrderOn {A : Type} (q : A -> float) (i : A -> Z) (l : list A) :
  (forall x, In x l -> positive64 (q x)) ->
  (forall x y, In x l -> In y l -> i x = i y -> x = y) ->
  strictOrderOn (twoStepLess q i) l.
Proof.
  intros Hpos Hinj. split; [| split].
  - intros x Hx. rewrite twoStepLess_compare by auto.
    unfold compare64. rewrite SFcompare_refl_positive by (apply Hpos, Hx).
    apply Z.ltb_irrefl.
  - intros x y z Hx Hy Hz.
    rewrite !twoStepLess_compare by auto. unfold compare64.
    destruct (SFcompare (Prim2SF (q x)) (Prim2SF (q y))) as [c1 |] eqn:E1;
      [| discriminate].
    destruct (SFcompare (Prim2SF (q y)) (Prim2SF (q z))) as [c2 |] eqn:E2;
      [| destruct c1; discriminate].
    intros H1 H2.
    assert (Hc1 : c1 <> Lt) by (intros ->; discriminate).
    assert (Hc2 : c2 <> Lt) by (intros ->; destruct c1; discriminate).
    rewrite (SFcompare_positive_trans _ _ _ c1 c2 (Hpos x Hx) (Hpos y Hy) (Hpos z Hz)
               E1 E2 Hc1 Hc2).
    destruct c1, c2; try congruence; try reflexivity.
    apply Z.ltb_lt in H1, H2. apply Z.ltb_lt. lia.
  - intros x y Hx Hy.
    rewrite !twoStepLess_compare by auto. unfold compare64.
    rewrite (SFcompare_positive_opp _ _ (Hpos x Hx) (Hpos y Hy)).
    destruct (SFcompare_positive_total _ _ (Hpos x Hx) (Hpos y Hy)) as [-> | [-> | ->]];
      cbn; auto.
    destruct (Z.lt_total (i x) (i y)) as [H | [H | H]].
    + right. left. now apply Z.ltb_lt.
    + left. now apply Hinj.
    + right. right. now apply Z.ltb_lt.
Qed.

Lemma sortedBy_ranksBefore {A : Type} (q : A -> float) (i : A -> Z) :
  forall out : list A,
    (forall x, In x out -> positive64 (q x)) ->
    NoDup (map i out) ->
    sortedBy (fun x y => twoStepLess q i y x = false) out ->
    sortedBy (ranksBefore q i) out.
Proof.
  induction out as [| x out IH]; intros Hpos Hnd Hs; [exact I |].
  cbn [map] in Hnd. apply NoDup_cons in Hnd as [Hx Hnd].
  destruct Hs as [Hall Hs]. split.
  - apply Forall_forall. intros y Hy. rewrite Forall_forall in Hall.
    pose proof (Hall y Hy) as Hyx. apply list_elem_of_In in Hy.
    assert (Hpx : positive64 (q x)) by (apply Hpos; now left).
    assert (Hpy : positive64 (q y)) by (apply Hpos; now right).
    assert (Hne : i x <> i y).
    { intros Heq. apply Hx. rewrite Heq. apply list_elem_of_In. now apply in_map. }
    apply twoStepLess_ranksBefore; [exact Hpx | exact Hpy |].
    rewrite twoStepLess_compare in Hyx by auto.
    rewrite twoStepLess_compare by auto. unfold compare64 in *.
    rewrite (SFcompare_positive_opp _ _ Hpx Hpy) in Hyx.
    destruct (SFcompare_positive_total _ _ Hpx Hpy) as [H | [H | H]];
      rewrite H in *; cbn in Hyx; try discriminate; try reflexivity.
    apply Z.ltb_ge in Hyx. apply Z.ltb_lt. lia.
  - apply IH; [intros y Hy; apply Hpos; now right | exact Hnd | exact Hs].
Qed.

Lemma ascending_NoDup (os : list Z) :
  forall lo, ascending lo os -> NoDup os /\ Forall (fun o => lo < o) os.
Proof.
  induction os as [| o rest IH]; intros lo Hasc; [split; constructor |].
  cbn in Hasc. destruct Hasc as [Ho Hrest].
  destruct (IH o Hrest) as [Hnd Hall]. split.
  - apply NoDup_cons. split; [| exact Hnd].
    intros Hin. rewrite Forall_forall in Hall. apply Hall in Hin. lia.
  - constructor; [lia |]. eapply Forall_impl; [exact Hall |]. cbn. intros; lia.
Qed.

Lemma NoDup_map_filter {A : Type} (i : A -> Z) (f : A -> bool) (l : list A) :
  NoDup (map i l) -> NoDup (map i (List.filter f l)).
Proof.
  induction l as [| x l IH]; [easy |]. cbn [map List.filter].
  intros H. apply NoDup_cons in H as [Hx Hnd].
  destruct (f x); [| now apply IH].
  cbn [map]. apply NoDup_cons. split; [| now apply IH].
  intros Hin. apply Hx. apply list_elem_of_In in Hin. apply list_elem_of_In.
  apply in_map_iff in Hin as (y & Hy & Hin). apply filter_In in Hin as [Hin _].
  apply in_map_iff. eauto.
Qed.

Lemma NoDup_map_inj {A : Type} (i : A -> Z) (l : list A) :
  NoDup (map i l) -> forall x y, In x l -> In y l -> i x = i y -> x = y.
Proof.
  induction l as [| a l IH]; [easy |]. cbn [map].
  intros H. apply NoDup_cons in H as [Ha Hnd].
  assert (Hout : forall z, In z l -> i a <> i z).
  { intros z Hz Heq. apply Ha. rewrite Heq. apply list_elem_of_In. now apply in_map. }
  intros x y [<- | Hx] [<- | Hy] Heq; auto.
  - now apply Hout in Heq.
  - symmetry in Heq. now apply Hout in Heq.
Qed.

Lemma twoStep_sorted {A : Type} (q : A -> float) (i : A -> Z) (acs : list A) :
  ascending (-1) (map i acs) ->
  let kept := List.filter (fun ac => PrimFloat.ltb 0 (q ac)) acs in
  Permutation (sort_Sort A (twoStepLess q i) kept) kept
  /\ sortedBy (ranksBefore q i) (sort_Sort A (twoStepLess q i) kept).
Proof.
  intros Hasc kept.
  pose proof (sort_Sort_Permutation A (twoStepLess q i) kept) as HP.
  split; [exact HP |].
  assert (Hpos : forall x, In x kept -> positive64 (q x)).
  { intros x Hx. apply filter_In in Hx as [_ Hx]. now apply ltb_zero_positive. }
  assert (Hnd : NoDup (map i kept)).
  { apply NoDup_map_filter. now apply (ascending_NoDup _ (-1)). }
  apply sortedBy_ranksBefore.
  - intros x Hx. apply Hpos. now apply (Permutation_in _ HP).
  - apply (proj2 (NoDup_Permutation_proper _ _ (Permutation_map i HP))). exact Hnd.
  - apply sort_Sort_sorted. apply twoStepLess_strictOrderOn; [exact Hpos |].
    now apply NoDup_map_inj.
Qed.

(** X12.  Without candidates PreferredLanguages and PreferredEncodings
    return the entries of quality above 0 in the order of their qualities,
    the highest first, and entries of equal quality in header order, for
    every sorting routine that sorts by an ordering: their comparator is one. *)
Theorem languages_and_encodings_by_quality (accept : string) :
  Z.of_nat (length (Split accept ",")) < 2 ^ 63 ->
  (forall acs, parseAcceptLanguage ParseFloat accept = Ok acs ->
     exists es,
       PreferredLanguages ParseFloat sort_Sort compareSpecs accept [] = Ok (map full es)
       /\ Permutation es (List.filter isAcceptLanguageQuality acs)
       /\ sortedBy (ranksBefore language_q language_i) es)
  /\ (forall acs, parseAcceptEncoding ParseFloat accept = Ok acs ->
     exists es,
       PreferredEncodings ParseFloat sort_Sort compareSpecs accept [] = Ok (map encoding es)
       /\ Permutation es (List.filter isAcceptEncodingQuality acs)
       /\ sortedBy (ranksBefore encoding_q encoding_i) es).
Proof.
  intros Hlen. split.
  - intros acs Hacs.
    assert (Hasc : ascending (-1) (map language_i acs)).
    { apply (parseLanguages_ascending (Split accept ",") 0 (-1) acs Hacs); lia. }
    destruct (twoStep_sorted language_q language_i acs Hasc) as [HP Hs].
    eexists. split; [| split; [exact HP | exact Hs]].
    unfold PreferredLanguages. rewrite Hacs. reflexivity.
  - intros acs Hacs.
    pose proof (parseAcceptEncoding_ascending accept acs Hlen Hacs) as Hasc.
    destruct (twoStep_sorted encoding_q encoding_i acs Hasc) as [HP Hs].
    eexists. split; [| split; [exact HP | exact Hs]].
    unfold PreferredEncodings. rewrite Hacs. reflexivity.
Qed.

(** ** Candidates in their own order *)

Lemma sortedBy_unique {A : Type} (R : A -> A -> Prop) :
  (forall x y, R x y -> R y x -> False) ->
  forall l1 l2 : list A,
    Permutation l1 l2 -> sortedBy R l1 -> sortedBy R l2 -> l1 = l2.
Proof.
  intros Hasym. induction l1 as [| x l1 IH]; intros l2 HP H1 H2.
  - now apply Permutation_nil in HP.
  - destruct l2 as [| y l2]; [now apply Permutation_sym, Permutation_nil in HP |].
    destruct H1 as [Hx H1], H2 as [Hy H2].
    assert (Hxy : x = y).
    { assert (Hin1 : In x (y :: l2)) by (apply (Permutation_in _ HP); now left).
      assert (Hin2 : In y (x :: l1))
        by (apply (Permutation_in _ (Permutation_sym HP)); now left).
      destruct Hin1 as [-> | Hin1]; [reflexivity |].
      destruct Hin2 as [-> | Hin2]; [reflexivity |].
      rewrite Forall_forall in Hx, Hy.
      apply list_elem_of_In in Hin1, Hin2.
      destruct (Hasym x y (Hx y Hin2) (Hy x Hin1)). }
    subst y. f_equal. apply IH; [| exact H1 | exact H2].
    now apply Permutation_cons_inv in HP.
Qed.

(** The scores of candidates that all match the one entry [*] of quality 1:
    position [i], order 0, quality 1, bits 0. *)
Fixpoint wildcardScores (n : nat) (i : Z) : list specificity :=
  match n with
  | O => []
  | S n' => mkSpecificity i 0 1 0 :: wildcardScores n' (i + 1)
  end.

Lemma wildcardScores_charsets :
  forall (types : list string) (i : Z),
    Forall (fun cs => cs <> "*") types ->
    getCharsetSpecificities_from types [mkAcceptCharset "*" 1 0] i
    = wildcardScores (length types) i.
Proof.
  induction types as [| cs rest IH]; intros i Hall; [reflexivity |].
  apply Forall_cons in Hall as [Hcs Hall].
  cbn [getCharsetSpecificities_from length wildcardScores]. rewrite IH by exact Hall.
  f_equal. unfold getCharsetPriority, charsetSpecify. cbn [fold_left charset].
  assert (E : String.eqb (ToLower "*") (ToLower cs) = false).
  { apply String.eqb_neq. intros H. apply Hcs. symmetry in H.
    now apply (proj1 (ToLower_star cs)) in H. }
  rewrite E. reflexivity.
Qed.

Lemma wildcardScores_sorted :
  forall (n : nat) (i : Z),
    sortedBy (fun x y => spec_i x < spec_i y) (wildcardScores n i)
    /\ Forall (fun v => i <= spec_i v /\ v = mkSpecificity (spec_i v) 0 1 0)
              (wildcardScores n i).
Proof.
  induction n as [| n IH]; intros i; [split; [exact I | constructor] |].
  destruct (IH (i + 1)) as [Hs Hall]. cbn [wildcardScores]. split.
  - split; [| exact Hs]. eapply Forall_impl; [exact Hall |]. cbn. intros v [? _]. lia.
  - constructor; [cbn; split; [lia | reflexivity] |].
    eapply Forall_impl; [exact Hall |]. cbn. intros v [? ?]. split; [lia | assumption].
Qed.

Lemma accepted_all (provided : list string) :
  forall ps : list specificity,
    length provided = length ps ->
    Forall (fun p => isSpecificityQuality p = true) ps ->
    accepted provided ps = provided.
Proof.
  induction provided as [| x provided IH]; intros ps Hlen Hall; [reflexivity |].
  destruct ps as [| p ps]; [discriminate Hlen |].
  apply Forall_cons in Hall as [Hp Hall].
  cbn [accepted]. rewrite Hp. f_equal. apply IH; [now injection Hlen | exact Hall].
Qed.

(** X13.  Without an Accept-Charset header, Charsets returns the candidates
    as they were given, in the same order, when none of them is the string
    [*], for every sorting routine that sorts by an ordering. *)
Theorem absent_header_keeps_candidates (n : Negotiator) (available : list string) :
  getHeaderValues (Header n) HeaderAcceptCharset = None ->
  Forall (fun cs => cs <> "*") available ->
  available <> [] ->
  Charsets n available = Ok available.
Proof.
  intros Hnone Hstar Hne. unfold Charsets, getAccept. rewrite Hnone.
  unfold PreferredCharsets.
  change (parseAcceptCharset ParseFloat "*") with (Ok [mkAcceptCharset "*" 1 0]).
  obind_simpl. rewrite (provided_nonempty _ Hne).
  unfold getCharsetSpecificities. rewrite (wildcardScores_charsets available 0 Hstar).
  set (ps := wildcardScores (length available) 0).
  destruct (wildcardScores_sorted (length available) 0) as [Hsorted Hshape].
  fold ps in Hsorted, Hshape.
  assert (Hq : Forall (fun p => isSpecificityQuality p = true) ps).
  { eapply Forall_impl; [exact Hshape |]. cbn. now intros v [_ ->]. }
  assert (Hfilter : List.filter isSpecificityQuality ps = ps).
  { clear -Hq. induction Hq as [| p l Hp _ IH]; [reflexivity |].
    cbn [List.filter]. now rewrite Hp, IH. }
  rewrite Hfilter.
  pose proof (sort_Sort_Permutation _ specLess ps) as HP.
  assert (Hless : forall x y, In x ps -> In y ps ->
                    specLess x y = (spec_i x <? spec_i y)).
  { intros x y Hx Hy. rewrite Forall_forall in Hshape.
    destruct (Hshape x (proj2 (list_elem_of_In _ _) Hx)) as [_ ->].
    destruct (Hshape y (proj2 (list_elem_of_In _ _) Hy)) as [_ ->].
    reflexivity. }
  assert (Hsame : sort_Sort _ specLess ps = ps).
  { apply (sortedBy_unique (fun x y => spec_i x < spec_i y)); [lia | exact HP | |
      exact Hsorted].
    assert (Hs : sortedBy (fun x y => specLess y x = false) (sort_Sort _ specLess ps)).
    { apply sort_Sort_sorted. split; [| split].
      - intros x Hx. rewrite Hless by assumption. apply Z.ltb_irrefl.
      - intros x y z Hx Hy Hz. rewrite !Hless by assumption.
        rewrite !Z.ltb_lt. lia.
      - intros x y Hx Hy. rewrite !Hless by assumption. rewrite !Z.ltb_lt.
        rewrite Forall_forall in Hshape.
        destruct (Hshape x (proj2 (list_elem_of_In _ _) Hx)) as [_ Ex].
        destruct (Hshape y (proj2 (list_elem_of_In _ _) Hy)) as [_ Ey].
        destruct (Z.lt_total (spec_i x) (spec_i y)) as [H | [H | H]]; auto.
        left. rewrite Ex, Ey, H. reflexivity. }
    assert (Hnd : NoDup (map spec_i (sort_Sort _ specLess ps))).
    { apply (proj2 (NoDup_Permutation_proper _ _ (Permutation_map spec_i HP))).
      clear -Hsorted. induction ps as [| p l IH]; [constructor |].
      destruct Hsorted as [Hp Hl]. cbn [map]. apply NoDup_cons. split; [| now apply IH].
      intros Hin. apply list_elem_of_In, in_map_iff in Hin as (y & Hy & Hin).
      rewrite Forall_forall in Hp. apply list_elem_of_In in Hin. apply Hp in Hin. lia. }
    revert Hs Hnd.
    assert (Hin : forall x, In x (sort_Sort _ specLess ps) -> In x ps)
      by (intros x; apply (Permutation_in _ HP)).
    revert Hin. generalize (sort_Sort _ specLess ps) as l.
    induction l as [| x l IH]; intros Hin Hs Hnd; [exact I |].
    destruct Hs as [Hx Hs]. cbn [map] in Hnd. apply NoDup_cons in Hnd as [Hxn Hnd].
    cbn [sortedBy].
    split; [| apply IH; [intros y Hy; apply Hin; now right | exact Hs | exact Hnd]].
    apply Forall_forall. intros y Hy. rewrite Forall_forall in Hx.
    pose proof (Hx y Hy) as Hyx. apply list_elem_of_In in Hy.
    rewrite Hless in Hyx by (apply Hin; ((now right) || (now left))).
    apply Z.ltb_ge in Hyx.
    assert (spec_i x <> spec_i y).
    { intros Heq. apply Hxn. rewrite Heq. apply list_elem_of_In. now apply in_map. }
    lia. }
  rewrite Hsame.
  assert (Hlen : length available = length ps).
  { unfold ps. rewrite <- (wildcardScores_charsets available 0 Hstar).
    symmetry. apply (getCharsetSpecificities_placed [mkAcceptCharset "*" 1 0] available 0). }
  assert (Hpl : placed 0 ps).
  { unfold ps. rewrite <- (wildcardScores_charsets available 0 Hstar).
    apply (getCharsetSpecificities_placed [mkAcceptCharset "*" 1 0] available 0). }
  destruct (collect_placed ps available Hpl Hlen ps) as (out & -> & HF).
  { rewrite Forall_forall in Hq. apply Forall_forall. intros v Hv. split.
    - now apply list_elem_of_In.
    - now apply Hq. }
  f_equal. rewrite (collect_candidateAt _ _ _ HF).
  rewrite <- Hfilter at 1.
  rewrite <- (accepted_candidateAt available ps 0 available Hpl Hlen (fun k => eq_refl)).
  now apply accepted_all.
Qed.

(** ** Candidates that do not parse *)

Lemma parseMediaType_none_index (s : string) (i j : Z) :
  parseMediaType ParseFloat s i = Ok None -> parseMediaType ParseFloat s j = Ok None.
Proof.
  unfold parseMediaType.
  destruct (simpleMediaTypeRegExp s) as [[[mt st] ps] |]; [| easy].
  destruct (negb (String.eqb ps "")); [| discriminate].
  obind_simpl. destruct (splitParameters ps) as [kvps |]; [| discriminate].
  destruct (mediaParams ParseFloat (map splitKeyValuePair kvps) ∅ 1)
    as [[[m q] |] |]; try discriminate; easy.
Qed.

Lemma parseLanguage_none_index (s : string) (i j : Z) :
  parseLanguage ParseFloat s i = Ok None -> parseLanguage ParseFloat s j = Ok None.
Proof.
  unfold parseLanguage.
  destruct (simpleLanguageRegExp s) as [[[pre suf] ps] |]; [| easy].
  obind_simpl. destruct (qualityOf ParseFloat ps) as [[q |] |]; try discriminate; easy.
Qed.

Lemma keepBest_none {A : Type} (acs : list A) (p0 : specificity) :
  fold_left (fun p (_ : A) => keepBest p None) acs p0 = p0.
Proof. revert p0. induction acs as [| a acs IH]; intros p0; [reflexivity | apply IH]. Qed.

Lemma getMediaTypeSpecificities_lookup (acs : list acceptMediaType) :
  forall (types : list string) (off : nat) (ps : list specificity),
    getMediaTypeSpecificities_from ParseFloat types acs (Z.of_nat off) = Ok ps ->
    forall k x p, types !! k = Some x -> ps !! k = Some p ->
                  getMediaTypePriority ParseFloat x acs (Z.of_nat (off + k)) = Ok p.
Proof.
  induction types as [| v rest IH]; intros off ps Hps k x p Hx Hp; [discriminate Hx |].
  cbn [getMediaTypeSpecificities_from] in Hps.
  replace (Z.of_nat off + 1) with (Z.of_nat (S off)) in Hps by lia.
  destruct (getMediaTypePriority ParseFloat v acs (Z.of_nat off)) as [p0 |] eqn:Ep;
    [| discriminate].
  destruct (getMediaTypeSpecificities_from ParseFloat rest acs (Z.of_nat (S off)))
    as [ps' |] eqn:Eps; [| discriminate].
  unfold mbind, outcome_bind, obind in Hps. injection Hps as <-.
  destruct k as [| k].
  - cbn in Hx, Hp. injection Hx as <-. injection Hp as <-.
    now rewrite Nat.add_0_r.
  - cbn in Hx, Hp. replace (off + S k)%nat with (S off + k)%nat by lia.
    now apply (IH (S off) ps' Eps).
Qed.

Lemma getLanguageSpecificities_lookup (acs : list acceptLanguage) :
  forall (types : list string) (off : nat) (ps : list specificity),
    getLanguageSpecificities_from ParseFloat types acs (Z.of_nat off) = Ok ps ->
    forall k x p, types !! k = Some x -> ps !! k = Some p ->
                  getLanguagePriority ParseFloat x acs (Z.of_nat (off + k)) = Ok p.
Proof.
  induction types as [| v rest IH]; intros off ps Hps k x p Hx Hp; [discriminate Hx |].
  cbn [getLanguageSpecificities_from] in Hps.
  replace (Z.of_nat off + 1) with (Z.of_nat (S off)) in Hps by lia.
  destruct (getLanguagePriority ParseFloat v acs (Z.of_nat off)) as [p0 |] eqn:Ep;
    [| discriminate].
  destruct (getLanguageSpecificities_from ParseFloat rest acs (Z.of_nat (S off)))
    as [ps' |] eqn:Eps; [| discriminate].
  unfold mbind, outcome_bind, obind in Hps. injection Hps as <-.
  destruct k as [| k].
  - cbn in Hx, Hp. injection Hx as <-. injection Hp as <-.
    now rewrite Nat.add_0_r.
  - cbn in Hx, Hp. replace (off + S k)%nat with (S off + k)%nat by lia.
    now apply (IH (S off) ps' Eps).
Qed.

(** X14.  A candidate that the package's own grammar does not accept (a
    media type without a slash, an empty language tag, a candidate with a
    [q] that is not a number) matches no entry, not even a wildcard, and is
    never returned, whatever the header. *)
Theorem unparsed_candidate_is_never_returned (accept x : string)
    (provided : list string) :
  provided <> [] ->
  (parseMediaType ParseFloat x 0 = Ok None ->
     exists out, PreferredMediaTypes ParseFloat sort_Sort accept provided = Ok out
                 /\ (In x out -> False))
  /\ (parseLanguage ParseFloat x 0 = Ok None ->
      forall out,
        PreferredLanguages ParseFloat sort_Sort compareSpecs accept provided = Ok out ->
        In x out -> False).
Proof.
  intros Hne. split.
  - intros Hx.
    destruct (PreferredMediaTypes_accepted accept provided Hne)
      as (acs & ps & out & _ & Hps & Hout & HP).
    exists out. split; [exact Hout |]. intros Hin.
    apply (Permutation_in _ HP), accepted_In in Hin as (k & p & Hk & Hp & Hq).
    pose proof (getMediaTypeSpecificities_lookup acs provided 0 ps Hps k x p Hk Hp) as Hpr.
    unfold getMediaTypePriority in Hpr.
    rewrite (getMediaTypePriority_fold ParseFloat x _ None
               (parseMediaType_none_index x 0 _ Hx)) in Hpr.
    cbn [mediaTypeScore mbind option_bind] in Hpr.
    rewrite keepBest_none in Hpr. injection Hpr as <-. discriminate Hq.
  - intros Hx out Hout Hin.
    destruct (parseAcceptLanguage ParseFloat accept) as [acs |] eqn:Hacs;
      [| unfold PreferredLanguages in Hout; rewrite Hacs in Hout; discriminate].
    destruct (getLanguageSpecificities ParseFloat provided acs) as [ps |] eqn:Hps.
    + destruct (PreferredLanguages_accepted accept provided acs ps Hne Hacs Hps)
        as (out' & Hout' & HP).
      rewrite Hout in Hout'. injection Hout' as <-.
      apply (Permutation_in _ HP), accepted_In in Hin as (k & p & Hk & Hp & Hq).
      pose proof (getLanguageSpecificities_lookup acs provided 0 ps Hps k x p Hk Hp)
        as Hpr.
      unfold getLanguagePriority in Hpr.
      rewrite (getLanguagePriority_fold ParseFloat x _ None
                 (parseLanguage_none_index x 0 _ Hx)) in Hpr.
      cbn [languageScore] in Hpr.
      rewrite keepBest_none in Hpr. injection Hpr as <-. discriminate Hq.
    + unfold PreferredLanguages in Hout. rewrite Hacs in Hout.
      unfold mbind, outcome_bind, obind in Hout.
      rewrite (provided_nonempty _ Hne), Hps in Hout. discriminate.
Qed.

End Selection.

(** ** The insertion sort sorts by an ordering *)

Lemma sortedBy_app {A : Type} (R : A -> A -> Prop) (l1 l2 : list A) :
  sortedBy R l1 -> sortedBy R l2 ->
  (forall a b, In a l1 -> In b l2 -> R a b) ->
  sortedBy R (l1 ++ l2).
Proof.
  induction l1 as [| x l1 IH]; intros H1 H2 H12; [exact H2 |].
  destruct H1 as [Hx H1]. cbn [app sortedBy]. split.
  - apply Forall_app. split; [exact Hx |].
    apply Forall_forall. intros b Hb. apply H12; [now left | now apply list_elem_of_In].
  - apply IH; [exact H1 | exact H2 |]. intros a b Ha Hb. apply H12; [now right | exact Hb].
Qed.

Lemma sortedBy_rev {A : Type} (R : A -> A -> Prop) (l : list A) :
  sortedBy R l -> sortedBy (fun x y => R y x) (rev l).
Proof.
  induction l as [| x l IH]; intros H; [exact I |].
  destruct H as [Hx H]. cbn [rev]. apply sortedBy_app.
  - now apply IH.
  - split; [constructor | exact I].
  - intros a b Ha [<- | []]. apply in_rev in Ha.
    rewrite Forall_forall in Hx. apply Hx. now apply list_elem_of_In.
Qed.

Lemma sift_sorted {A : Type} (less : A -> A -> bool) (l : list A) (x : A) :
  strictOrderOn less l -> In x l ->
  forall before : list A,
    (forall z, In z before -> In z l) ->
    sortedBy (fun u v => less u v = false) before ->
    sortedBy (fun u v => less u v = false) (sift less x before).
Proof.
  intros (Hirr & Htrans & Htri) Hx.
  induction before as [| y rest IH]; intros Hsub Hs.
  - split; [constructor | exact I].
  - destruct Hs as [Hy Hs]. cbn [sift].
    assert (Hyl : In y l) by (apply Hsub; now left).
    assert (Hrest : forall z, In z rest -> In z l) by (intros z Hz; apply Hsub; now right).
    destruct (less x y) eqn:Hxy.
    + split; [| now apply IH].
      apply Forall_forall. intros z Hz. apply list_elem_of_In in Hz.
      apply (Permutation_in _ (sift_Permutation less x rest)) in Hz.
      destruct Hz as [<- | Hz].
      * destruct (less y x) eqn:Hyx; [| reflexivity].
        rewrite <- (Hirr x Hx). symmetry. now apply (Htrans x y x).
      * rewrite Forall_forall in Hy. apply Hy. now apply list_elem_of_In.
    + split; [| split; [exact Hy | exact Hs]].
      constructor; [exact Hxy |].
      apply Forall_forall. intros z Hz. rewrite Forall_forall in Hy.
      pose proof (Hy z Hz) as Hyz. apply list_elem_of_In in Hz.
      assert (Hzl : In z l) by now apply Hrest.
      destruct (less x z) eqn:Hxz; [| reflexivity].
      destruct (Htri x y Hx Hyl) as [-> | [H | H]]; [congruence | congruence |].
      rewrite <- Hyz. symmetry. now apply (Htrans y x z).
Qed.

Lemma insertionSort_sorted (A : Type) (less : A -> A -> bool) (l : list A) :
  strictOrderOn less l ->
  sortedBy (fun x y => less y x = false) (insertionSort A less l).
Proof.
  intros Hord. unfold insertionSort.
  apply (sortedBy_rev (fun u v => less u v = false)).
  assert (H : forall data before,
             (forall z, In z data -> In z l) -> (forall z, In z before -> In z l) ->
             sortedBy (fun u v => less u v = false) before ->
             sortedBy (fun u v => less u v = false)
                      (fold_left (fun before x => sift less x before) data before)).
  { induction data as [| x data IH]; intros before Hd Hb Hs; [exact Hs |].
    cbn [fold_left]. apply IH.
    - intros z Hz. apply Hd. now right.
    - intros z Hz. apply (Permutation_in _ (sift_Permutation less x before)) in Hz.
      destruct Hz as [<- | Hz]; [apply Hd; now left | now apply Hb].
    - apply (sift_sorted less l); [exact Hord | apply Hd; now left | exact Hb | exact Hs]. }
  apply H; [auto | intros z [] | exact I].
Qed.

(** ** The further properties at concrete headers *)

Lemma result_is_accepted_candidates_witness :
  exists out,
    PreferredLanguages ParseFloat64 insertionSort specLess "en;q=0.5, fr"
      ["fr"; "de"; "en"] = Ok out
    /\ Permutation out
         (accepted ["fr"; "de"; "en"]
            [mkSpecificity 0 1 1 4; noPriority; mkSpecificity 2 0 0.5 4]).
Proof.
  apply (proj1 (proj2 (proj2
           (result_is_accepted_candidates ParseFloat64 insertionSort specLess
              insertionSort_Permutation "en;q=0.5, fr" ["fr"; "de"; "en"]
              ltac:(discriminate))))
           [mkAcceptLanguage "en" "" "en" 0.5 0; mkAcceptLanguage "fr" "" "fr" 1 1]);
    vm_compute; reflexivity.
Defined.


Lemma parsed_encodings_invariant_witness :
  existsb matchesIdentity [mkAcceptEncoding "gzip" 0.5 0; mkAcceptEncoding "identity" 0.5 1]
  = true
  /\ ascending (-1)
       (map encoding_i [mkAcceptEncoding "gzip" 0.5 0; mkAcceptEncoding "identity" 0.5 1]).
Proof.
  destruct (parsed_encodings_invariant ParseFloat64 "gzip;q=0.5"
              [mkAcceptEncoding "gzip" 0.5 0; mkAcceptEncoding "identity" 0.5 1]
              ltac:(vm_compute; reflexivity) ltac:(vm_compute; reflexivity))
    as (H1 & H2 & _).
  split; [exact H1 | exact H2].
Defined.

Lemma parsed_orders_ascend_witness :
  ascending (-1)
    (map language_i [mkAcceptLanguage "en" "" "en" 1 0; mkAcceptLanguage "fr" "" "fr" 1 2])
  /\ ascending (-1)
       (map mediaType_i
          [mkAcceptMediaType "text" "html" ∅ 1 0; mkAcceptMediaType "text" "plain" ∅ 1 2]).
Proof.
  split.
  - apply (proj1 (parsed_orders_ascend ParseFloat64 "en, de;q=x, fr"
                    ltac:(vm_compute; discriminate))).
    vm_compute. reflexivity.
  - apply (proj2 (parsed_orders_ascend ParseFloat64 "text/html, a;q=x, text/plain"
                    ltac:(vm_compute; discriminate))).
    vm_compute. reflexivity.
Defined.

Lemma absent_header_accepts_everything_witness :
  exists out,
    Encodings ParseFloat64 insertionSort specLess (fun key => key) (New None)
      ["gzip"; "br"] = Ok out
    /\ Permutation out ["gzip"; "br"].
Proof.
  destruct (proj1 (proj2
              (absent_header_accepts_everything ParseFloat64 insertionSort specLess
                 insertionSort_Permutation (fun key => key) (New None) ["gzip"; "br"]))
              eq_refl) as [_ H].
  apply H. discriminate.
Defined.


Lemma languages_and_encodings_by_quality_witness :
  exists es,
    PreferredLanguages ParseFloat64 insertionSort specLess "en;q=0.5, fr, de;q=0" []
    = Ok (map full es)
    /\ Permutation es
         (List.filter isAcceptLanguageQuality
            [mkAcceptLanguage "en" "" "en" 0.5 0; mkAcceptLanguage "fr" "" "fr" 1 1;
             mkAcceptLanguage "de" "" "de" 0 2])
    /\ sortedBy (ranksBefore language_q language_i) es.
Proof.
  apply (proj1 (languages_and_encodings_by_quality ParseFloat64 insertionSort specLess
                  insertionSort_Permutation insertionSort_sorted
                  "en;q=0.5, fr, de;q=0" ltac:(vm_compute; reflexivity))).
  vm_compute. reflexivity.
Defined.

Lemma absent_header_keeps_candidates_witness :
  Charsets ParseFloat64 insertionSort (fun key => key) (New None) ["utf-8"; "iso-8859-1"]
  = Ok ["utf-8"; "iso-8859-1"].
Proof.
  apply (absent_header_keeps_candidates ParseFloat64 insertionSort
           insertionSort_Permutation (fun key => key) insertionSort_sorted).
  - reflexivity.
  - repeat constructor; discriminate.
  - discriminate.
Defined.

Lemma unparsed_candidate_is_never_returned_witness :
  exists out,
    PreferredMediaTypes ParseFloat64 insertionSort "*/*" ["json"; "text/html"] = Ok out
    /\ (In "json" out -> False).
Proof.
  apply (proj1 (unparsed_candidate_is_never_returned ParseFloat64 insertionSort specLess
                  insertionSort_Permutation "*/*" "json" ["json"; "text/html"]
                  ltac:(discriminate))).
  vm_compute. reflexivity.
Defined.
